(** * Signal-analysis core of the IND320 dashboard

    Shallow embedding of the numerical steps of
    [pages/6_Outliers_and_LOF.py] (SATV high-pass filter, robust SPC band,
    LOF parameter handling) and [pages/3_STL_and_Spectrogram.py]
    (spectrogram parameters).

    Number model.  The pages compute on binary64 arrays.  Here the
    statistics of the SPC band are computed on exact rationals ([Q]), the
    cosine transform on the reals ([R]); a missing value (the NaN that
    [pd.to_numeric(..., errors="coerce")] produces) is [None] in a series of
    [option Q].  Rounding error, overflow and infinities are outside the
    model. *)

From Stdlib Require Import ZArith QArith Qround Qabs Qpower Reals Lqa Lra Lia List Bool.
From Stdlib Require Import Sorting.Permutation Sorting.Sorted Sorting.Mergesort Orders.
From stdpp Require Import gmap strings.
Import ListNotations.

(** ** Python and numpy primitives *)

Module Py.

(** [int(q)] on a number: truncation toward zero. *)
Definition int (q : Q) : Z := Z.quot (Qnum q) (Zpos (Qden q)).

(** [len(x)]. *)
Definition len {A : Type} (x : list A) : Z := Z.of_nat (length x).

(** The index at which the slice [x[:stop]] ends in an array of [n]
    elements: a negative [stop] counts from the end, and the result is
    clipped to [0 .. n]. *)
Definition slice_stop (stop n : Z) : nat :=
  Z.to_nat (if (stop <? 0)%Z then Z.max 0 (n + stop) else Z.min stop n).

(** [x[:stop] = v] on a one-dimensional array: the scalar is broadcast over
    the slice, the other positions keep their value. *)
Definition slice_fill {A : Type} (stop : Z) (v : A) (x : list A) : list A :=
  let c := slice_stop stop (len x) in
  repeat v c ++ skipn c x.

(** [a.sum()] of a boolean array: the number of [True] entries. *)
Definition count_true (b : list bool) : nat := length (List.filter (fun t => t) b).

End Py.

(** ** Robust SPC band (lines 63-67 of the outlier page) *)

Module QOrder <: TotalLeBool.
Definition t := Q.
Definition leb := Qle_bool.
Lemma leb_total : forall x y : t, leb x y = true \/ leb y x = true.
Proof.
  intros x y. unfold leb. rewrite !Qle_bool_iff.
  destruct (Qlt_le_dec x y) as [H | H]; [left; apply Qlt_le_weak, H | right; exact H].
Qed.
End QOrder.

Module QSort := Sort QOrder.

Module Spc.
Local Open Scope Q_scope.

(** [np.median]: the middle element of the sorted values, or the mean of
    the two middle elements when their number is even. *)
Definition median (a : list Q) : Q :=
  let s := QSort.sort a in
  let n := length a in
  if Nat.even n
  then (nth (n / 2 - 1) s 0 + nth (n / 2) s 0) / 2
  else nth (n / 2) s 0.

(** What it means for [m] to be a median of [a]: at least half of the
    values are at most [m], and at least half are at least [m]. *)
Definition count_le (m : Q) (a : list Q) : nat :=
  length (List.filter (fun x => Qle_bool x m) a).

Definition count_ge (m : Q) (a : list Q) : nat :=
  length (List.filter (fun x => Qle_bool m x) a).

Definition is_median (m : Q) (a : list Q) : Prop :=
  (length a <= 2 * count_le m a)%nat /\ (length a <= 2 * count_ge m a)%nat.

(** [x or d] on a number: [x] unless it is zero. *)
Definition or_else (x d : Q) : Q := if Qeq_bool x 0 then d else x.

Definition med (satv : list Q) : Q := median satv.

Definition deviations (satv : list Q) : list Q :=
  map (fun x => Qabs (x - med satv)) satv.

Definition mad (satv : list Q) : Q := or_else (median (deviations satv)) 1e-9.

Definition sigma (satv : list Q) : Q := 1.4826 * mad satv.

Definition lo (satv : list Q) (k_sigma : Q) : Q := med satv - k_sigma * sigma satv.

Definition hi (satv : list Q) (k_sigma : Q) : Q := med satv + k_sigma * sigma satv.

Definition Qlt_bool (x y : Q) : bool := negb (Qle_bool y x).

(** [(satv < lo) | (satv > hi)], elementwise. *)
Definition out (satv : list Q) (k_sigma : Q) : list bool :=
  map (fun x => Qlt_bool x (lo satv k_sigma) || Qlt_bool (hi satv k_sigma) x) satv.

(** [int(out.sum())]: the number of flagged samples. *)
Definition flagged_count (satv : list Q) (k_sigma : Q) : nat :=
  Py.count_true (out satv k_sigma).

End Spc.

(** ** Orthonormal cosine transform

    [scipy.fftpack.dct] and [idct] are library code, not part of the
    repository.  Section 4.2 of the spec names them "an orthonormal discrete
    cosine transform" and its inverse; with the default [type=2] and
    [norm="ortho"] of the two calls these are the DCT-II and DCT-III,
    written here on the reals. *)

Module Dct.
Local Open Scope R_scope.

(** Sum of [f i x] over the elements [x] of a list, [i] their index counted
    from [start]. *)
Fixpoint isum (f : nat -> R -> R) (start : nat) (l : list R) : R :=
  match l with
  | [] => 0
  | x :: l' => f start x + isum f (S start) l'
  end.

(** The angle [pi * k / (2 N)]. *)
Definition angle (N k : nat) : R := PI * INR k / (2 * INR N).

(** The factor that makes the transform orthonormal. *)
Definition scale (N k : nat) : R :=
  match k with
  | O => sqrt (1 / (4 * INR N))
  | S _ => sqrt (1 / (2 * INR N))
  end.

(** Coefficient [k] of the DCT-II:
    [y[k] = f_k * 2 * sum_n x[n] cos(pi k (2n+1) / (2N))]. *)
Definition dct_coeff (x : list R) (k : nat) : R :=
  let N := length x in
  scale N k * (2 * isum (fun n xn => xn * cos ((2 * INR n + 1) * angle N k)) 0 x).

(** Modelled from the spec: [dct(s, norm="ortho")], the orthonormal
    discrete cosine transform of section 4.2; the library function itself is
    not in the repository. *)
Definition dct (x : list R) : list R := map (dct_coeff x) (seq 0 (length x)).

(** Sample [n] of the DCT-III:
    [x[n] = y[0]/sqrt N + sqrt(2/N) * sum_{k>=1} y[k] cos(pi (2n+1) k / (2N))]. *)
Definition idct_sample (y : list R) (n : nat) : R :=
  let N := length y in
  match y with
  | [] => 0
  | y0 :: ys =>
      y0 / sqrt (INR N)
      + sqrt (2 / INR N) * isum (fun k yk => yk * cos ((2 * INR n + 1) * angle N k)) 1 ys
  end.

(** Modelled from the spec: [idct(x, norm="ortho")], the inverse transform
    of section 4.2; the library function itself is not in the repository. *)
Definition idct (y : list R) : list R := map (idct_sample y) (seq 0 (length y)).

(** [sum_{i = start}^{start + len - 1} f i]. *)
Fixpoint rsum (f : nat -> R) (start len : nat) : R :=
  match len with
  | O => 0
  | S len' => f start + rsum f (S start) len'
  end.

(** Entry [(m, n)] of the matrix of the transform followed by [idct]. *)
Definition kernel (N m n : nat) : R :=
  1 / INR N
  + 2 / INR N
    * rsum (fun k => cos ((2 * INR m + 1) * angle N k) * cos ((2 * INR n + 1) * angle N k))
        1 (N - 1).

End Dct.

(** ** SATV high-pass filter (lines 59-62 of the outlier page) *)

Section Satv.
Context {V : Type}.
Variable zero : V.
Variables dct idct : list V -> list V.

(** [cutoff = int(len(x) * dct_keep_frac)]. *)
Definition cutoff (n : Z) (dct_keep_frac : Q) : Z :=
  Py.int (inject_Z n * dct_keep_frac).

(** The coefficients after [x[:max(1, cutoff)] = 0.0]. *)
Definition satv_coeffs (s : list V) (dct_keep_frac : Q) : list V :=
  let x := dct s in
  Py.slice_fill (Z.max 1 (cutoff (Py.len x) dct_keep_frac)) zero x.

Definition satv (s : list V) (dct_keep_frac : Q) : list V :=
  idct (satv_coeffs s dct_keep_frac).

End Satv.

(** The filter on real-valued series, with the transform of [Dct]. *)
Definition satv_real : list R -> Q -> list R := satv 0%R Dct.dct Dct.idct.

Definition satv_coeffs_real : list R -> Q -> list R := satv_coeffs 0%R Dct.dct.

(** ** LOF detector parameters and flags (lines 92-96 of the outlier page) *)

Module Lof.

(** A series as [pd.to_numeric(..., errors="coerce")] returns it: [None] is
    a missing value. *)
Definition series := list (option Q).

(** [.fillna(v)]: a new series with every missing value replaced. *)
Definition fillna (v : Q) (s : series) : list Q :=
  map (fun o => match o with Some q => q | None => v end) s.

(** [z]: the feature column handed to the detector. *)
Definition z (precipitation : series) : list Q := fillna 0 precipitation.

(** [nn = min(max(5, int(n_neighbors)), max(5, len(z) - 1))]. *)
Definition nn (n_neighbors : Z) (len_z : Z) : Z :=
  Z.min (Z.max 5 n_neighbors) (Z.max 5 (len_z - 1)).

Section Detector.
(** [LocalOutlierFactor(n_neighbors, contamination).fit_predict]: library
    code, one label (1 or -1) per sample. *)
Variable fit_predict : Z -> Q -> list Q -> list Z.

Definition labels (precipitation : series) (n_neighbors : Z) (contamination : Q) : list Z :=
  let zs := z precipitation in
  fit_predict (nn n_neighbors (Py.len zs)) contamination zs.

(** [out2 = labels == -1]. *)
Definition out2 (precipitation : series) (n_neighbors : Z) (contamination : Q) : list bool :=
  map (fun l => (l =? -1)%Z) (labels precipitation n_neighbors contamination).

End Detector.
End Lof.

(** ** Binary64 products

    Line 113 multiplies an [int] by a [float]; the product is rounded to
    binary64 before [int()] truncates it.  A float is given here by its exact
    rational value. *)

Module Float64.
Local Open Scope Q_scope.

(** The nearest integer, ties to the even one. *)
Definition round_half_even (q : Q) : Z :=
  let f := Qfloor q in
  match Qcompare (q - inject_Z f) (1 # 2) with
  | Lt => f
  | Gt => (f + 1)%Z
  | Eq => if Z.even f then f else (f + 1)%Z
  end.

(** [floor (log2 q)] for [q > 0]. *)
Definition ilog2 (q : Q) : Z :=
  let g := (Z.log2 (Qnum q) - Z.log2 (Zpos (Qden q)))%Z in
  if Qle_bool (2 ^ g) q then g else (g - 1)%Z.

(** The exponent of the last place of a number of magnitude [q]: 53
    significant bits, and no exponent below that of the subnormals. *)
Definition ulp_exp (q : Q) : Z := Z.max (ilog2 (Qabs q) - 52) (-1074).

(** Rounding to the nearest binary64 number, ties to even.  Overflow to
    infinity (magnitudes from [2^1024]) is not modelled. *)
Definition round (q : Q) : Q :=
  if Qeq_bool q 0 then 0
  else let e := ulp_exp q in inject_Z (round_half_even (q * 2 ^ (- e))) * 2 ^ e.

(** [n * y] for an [int] [n] and a [float] [y], as Python computes it: the
    integer is converted (exactly, for [|n| < 2^53]) and the product is
    rounded. *)
Definition mul_int (n : Z) (y : Q) : Q := round (inject_Z n * y).

End Float64.

(** ** Spectrogram parameters (lines 109-114 of the STL page) *)

Module Spectrogram.

(** [nperseg = int(window_len)]. *)
Definition nperseg (window_len : Z) : Z := window_len.

(** [noverlap = int(nperseg * float(overlap))]; [overlap] is the exact
    value of the slider's float. *)
Definition noverlap (window_len : Z) (overlap : Q) : Z :=
  Py.int (Float64.mul_int (nperseg window_len) overlap).

(** What the tab does with the series [s2]: the notice for an empty series,
    otherwise the call [spectrogram(s2.values, fs=1.0, nperseg, noverlap)]. *)
Inductive action : Type :=
| Info
| Call (values : list Q) (nperseg noverlap : Z).

Definition tab (s2 : list Q) (window_len : Z) (overlap : Q) : action :=
  match s2 with
  | [] => Info
  | _ => Call s2 (nperseg window_len) (noverlap window_len overlap)
  end.

End Spectrogram.

(** ** The two tabs as programs on a store of arrays

    numpy arrays are mutable objects: the store maps an address to the
    contents of the array that lives there.  A library call that returns a
    new array ([dct] and [idct] with their default [overwrite_x=False],
    [fillna] without [inplace]) allocates; [to_numpy()] and [reshape] return
    a view, that is the address they were given. *)

Section Tabs.
Context {V : Type}.
Variable zero : V.
Variables dct idct : list V -> list V.
(** Lines 63-67: the band and the flags, read off [satv]. *)
Variable spc : list V -> Q -> list bool.
(** [.fillna(0.0)] and the detector of [sklearn]. *)
Variable fillna0 : list V -> list V.
Variable fit_predict : Z -> Q -> list V -> list Z.

Definition M (A : Type) : Type := gmap nat (list V) -> A * gmap nat (list V).

Definition ret {A : Type} (a : A) : M A := fun h => (a, h).

Definition bind {A B : Type} (m : M A) (f : A -> M B) : M B :=
  fun h => let (a, h') := m h in f a h'.

(** A new array, at an address not in use. *)
Definition new_array (a : list V) : M nat :=
  fun h => let l := fresh (dom h) in (l, <[l := a]> h).

(** The contents of the array at [l]. *)
Definition contents (l : nat) : M (list V) :=
  fun h => (default [] (h !! l), h).

(** In-place update of the array at [l]. *)
Definition modify (l : nat) (f : list V -> list V) : M unit :=
  fun h => (tt, alter f l h).

Local Notation "'let*' x ':=' m 'in' k" := (bind m (fun x => k))
  (at level 10, x name, m at level 100, k at level 200).

(** Lines 58-67; [temperature] is the address of the column's buffer. *)
Definition spc_tab (temperature : nat) (dct_keep_frac k_sigma : Q) : M (nat * list bool) :=
  let s := temperature in
  let* sv := contents s in
  let* x := new_array (dct sv) in
  let* xv := contents x in
  let* _ := modify x (Py.slice_fill (Z.max 1 (cutoff (Py.len xv) dct_keep_frac)) zero) in
  let* xv' := contents x in
  let* satv := new_array (idct xv') in
  let* satv_v := contents satv in
  ret (satv, spc satv_v k_sigma).

(** Lines 92-96; [precipitation] is the address of the column's buffer. *)
Definition lof_tab (precipitation : nat) (n_neighbors : Z) (contamination : Q) : M (nat * list bool) :=
  let* col := contents precipitation in
  let* z := new_array (fillna0 col) in
  let* zv := contents z in
  ret (z, map (fun l => (l =? -1)%Z)
            (fit_predict (Lof.nn n_neighbors (Py.len zv)) contamination zv)).

End Tabs.

(** ** Sums and weights for the cosine transform *)

Module DctAlg.
Local Open Scope R_scope.

(** The weight of coefficient [k] in both transforms: [1/sqrt N] for
    [k = 0] and [sqrt (2/N)] otherwise. *)
Definition weight (N k : nat) : R := Dct.scale N k * 2.

(** [sum_n cos((2n+1) a_j) cos((2n+1) a_k)], weighted: entry [(j, k)] of the
    matrix of [idct] followed by [dct]. *)
Definition cokernel (N j k : nat) : R :=
  weight N j * weight N k
  * Dct.rsum (fun n => cos ((2 * INR n + 1) * Dct.angle N j)
                       * cos ((2 * INR n + 1) * Dct.angle N k)) 0 N.

(** The sum of the elements of an array. *)
Definition total (l : list R) : R := fold_right Rplus 0 l.

(** The sum of the squares of the elements of an array. *)
Definition energy (l : list R) : R := total (map (fun v => v * v) l).

End DctAlg.

(** ** Dictionaries, sorted distinct values *)

Module Dict.

(** [d.get(k)] on a dict literal, kept as the list of its items: [None]
    when the key is missing. *)
Fixpoint get {V : Type} (d : list (string * V)) (k : string) : option V :=
  match d with
  | [] => None
  | (k', v) :: d' => if String.eqb k' k then Some v else get d' k
  end.

(** [list(d.keys())]: the keys in the order of the literal. *)
Definition keys {V : Type} (d : list (string * V)) : list string := map fst d.

End Dict.

Module StringOrder <: TotalLeBool.
Definition t := string.
Definition leb := String.leb.
Definition leb_total : forall x y : t, leb x y = true \/ leb y x = true :=
  String.leb_total.
End StringOrder.

Module StringSort := Sort StringOrder.

(** [sorted(set(l))] and [sorted(col.unique())]: the distinct strings of
    [l] in increasing order. *)
Definition sorted_distinct (l : list string) : list string :=
  StringSort.sort (nodup String.string_dec l).

(** [l.index(x)]: the first position of [x]; [None] is the [ValueError]
    raised when [x] is not in the list. *)
Fixpoint list_index (x : string) (l : list string) : option nat :=
  match l with
  | [] => None
  | y :: l' => if String.eqb y x then Some 0%nat else option_map S (list_index x l')
  end.

(** ** Area selection (outlier page, lines 11-25) *)

Module Outlier.

Definition PRICE_AREAS : list (string * string) :=
  [("NO1", "Oslo"); ("NO2", "Kristiansand"); ("NO3", "Trondheim");
   ("NO4", "Tromsø"); ("NO5", "Bergen")]%string.

Definition CITY_COORDS : list (string * (Q * Q)) :=
  [("Oslo"%string, (59.9139, 10.7522)%Q);
   ("Kristiansand"%string, (58.1467, 7.9956)%Q);
   ("Trondheim"%string, (63.4305, 10.3951)%Q);
   ("Tromsø"%string, (69.6492, 18.9553)%Q);
   ("Bergen"%string, (60.3913, 5.3221)%Q)].

(** [get_selection()]; the argument is the entry ["selected_area"] of the
    session state, if any; [None] as result is the [KeyError] of
    [CITY_COORDS[city]]. *)
Definition get_selection (selected_area : option string)
  : option (string * string * Q * Q) :=
  let area := default "NO1"%string selected_area in
  let city := default "Oslo"%string (Dict.get PRICE_AREAS area) in
  match Dict.get CITY_COORDS city with
  | Some (lat, lon) => Some (area, city, lat, lon)
  | None => None
  end.

End Outlier.

(** ** Area selector of the production page (lines 12-25 and 56-68) *)

Module Production.

Definition PRICE_AREAS : list (string * string) :=
  [("NO1", "Oslo"); ("NO2", "Kristiansand"); ("NO3", "Trondheim");
   ("NO4", "Tromsø"); ("NO5", "Bergen")]%string.

Definition CITY_COORDS : list (string * (Q * Q)) :=
  [("Oslo"%string, (59.9139, 10.7522)%Q);
   ("Kristiansand"%string, (58.1467, 7.9956)%Q);
   ("Trondheim"%string, (63.4305, 10.3951)%Q);
   ("Tromsø"%string, (69.6492, 18.9553)%Q);
   ("Bergen"%string, (60.3913, 5.3221)%Q)].

(** The price areas of the previewed documents that pass the test
    [if d.get("priceArea")]: present and not the empty string.  A document
    is given by its [d.get("priceArea")]. *)
Definition truthy_areas (docs_preview : list (option string)) : list string :=
  flat_map (fun d => match d with
                     | Some a => if String.eqb a "" then [] else [a]
                     | None => []
                     end) docs_preview.

Definition areas_in_db (docs_preview : list (option string)) : list string :=
  sorted_distinct (truthy_areas docs_preview).

(** [areas = areas_in_db if areas_in_db else list(PRICE_AREAS.keys())]. *)
Definition areas (docs_preview : list (option string)) : list string :=
  match areas_in_db docs_preview with
  | [] => Dict.keys PRICE_AREAS
  | l => l
  end.

(** What lines 62-68 store for the other pages. *)
Record selection : Type := {
  selected_area : string;
  selected_city : string;
  selected_coords : Q * Q
}.

(** Lines 62-68 for the area the radio returned; [None] is the [KeyError]
    of [CITY_COORDS[city]]. *)
Definition select (area : string) : option selection :=
  let city := default "Oslo"%string (Dict.get PRICE_AREAS area) in
  match Dict.get CITY_COORDS city with
  | Some coords =>
      Some {| selected_area := area; selected_city := city; selected_coords := coords |}
  | None => None
  end.

End Production.

(** ** Selectors of the STL page (lines 35-54) *)

Module Stl.

(** A row of the production snapshot. *)
Record row : Type := {
  priceArea : string;
  productionGroup : string;
  startTime : Z;
  quantityKwh : Q
}.

(** [sorted(elhub["priceArea"].unique())]. *)
Definition price_areas (elhub : list row) : list string :=
  sorted_distinct (map priceArea elhub).

(** [default_area = st.session_state.get("selected_area", "NO1")]. *)
Definition default_area (selected_area : option string) : string :=
  default "NO1"%string selected_area.

(** The [index=] argument of the area selector; [None] is the
    [ValueError] of [list.index]. *)
Definition area_index (elhub : list row) (selected_area : option string) : option nat :=
  list_index (default_area selected_area) (price_areas elhub).

(** [groups]: the production groups on offer for [area]. *)
Definition groups (elhub : list row) (area : string) : list string :=
  sorted_distinct
    (map productionGroup (List.filter (fun r => String.eqb (priceArea r) area) elhub)).

(** [elhub[(elhub.priceArea == area) & (elhub.productionGroup == group)]]. *)
Definition selected_rows (elhub : list row) (area group : string) : list row :=
  List.filter (fun r => String.eqb (priceArea r) area && String.eqb (productionGroup r) group)
    elhub.

End Stl.

(** ** Month range of the dashboard (app.py, lines 78-80) *)

Module App.

(** [df.head(n)]: the first [n] rows, or all but the last [-n] when [n] is
    negative. *)
Definition head {A : Type} (n : Z) (df : list A) : list A :=
  if (n <? 0)%Z then firstn (Z.to_nat (Py.len df + n)) df else firstn (Z.to_nat n) df.

(** [hours_per_month = len(df) // 12]. *)
Definition hours_per_month {A : Type} (df : list A) : Z := (Py.len df / 12)%Z.

(** [end_idx = selected_range * hours_per_month]. *)
Definition end_idx {A : Type} (selected_range : Z) (df : list A) : Z :=
  (selected_range * hours_per_month df)%Z.

(** [plot_data = df.head(end_idx)]. *)
Definition plot_data {A : Type} (selected_range : Z) (df : list A) : list A :=
  head (end_idx selected_range df) df.

End App.

(** * Properties *)

(** ** Lists *)

Section ListFacts.
Context {A : Type}.

Lemma filter_length_perm (f : A -> bool) (l l' : list A) :
  Permutation l l' -> length (List.filter f l) = length (List.filter f l').
Proof.
  induction 1 as [| x l l' _ IH | x y l | l l' l'' _ IH1 _ IH2]; simpl.
  - reflexivity.
  - destruct (f x); simpl; congruence.
  - destruct (f x), (f y); reflexivity.
  - congruence.
Qed.

Lemma filter_length_le (f : A -> bool) (l : list A) :
  (length (List.filter f l) <= length l)%nat.
Proof.
  induction l as [| x l IH]; simpl; [lia |].
  destruct (f x); simpl; lia.
Qed.

(** If the first [c] elements pass the test, at least [c] elements do. *)
Lemma filter_length_prefix (f : A -> bool) (d : A) (l : list A) :
  forall c, (c <= length l)%nat ->
  (forall j, (j < c)%nat -> f (nth j l d) = true) ->
  (c <= length (List.filter f l))%nat.
Proof.
  induction l as [| x l IH]; intros c Hc Hall; simpl in *.
  - lia.
  - destruct c as [| c]; [lia |].
    rewrite (Hall 0%nat) by lia. simpl.
    apply le_n_S, IH; [lia |].
    intros j Hj. apply (Hall (S j)). lia.
Qed.

(** If all elements from index [c] on pass the test, at least
    [length l - c] elements do. *)
Lemma filter_length_suffix (f : A -> bool) (d : A) (l : list A) :
  forall c,
  (forall j, (c <= j < length l)%nat -> f (nth j l d) = true) ->
  (length l - c <= length (List.filter f l))%nat.
Proof.
  induction l as [| x l IH]; intros c Hall; simpl in *.
  - lia.
  - destruct c as [| c].
    + rewrite (Hall 0%nat) by lia. simpl.
      specialize (IH 0%nat). rewrite Nat.sub_0_r in IH.
      apply le_n_S, IH. intros j Hj. apply (Hall (S j)). lia.
    + specialize (IH c).
      assert (length l - c <= length (List.filter f l))%nat as H.
      { apply IH. intros j Hj. apply (Hall (S j)). lia. }
      destruct (f x); simpl; lia.
Qed.

(** A pointwise weaker test keeps at least as many elements. *)
Lemma filter_length_mono (f g : A -> bool) (l : list A) :
  (forall x, In x l -> f x = true -> g x = true) ->
  (length (List.filter f l) <= length (List.filter g l))%nat.
Proof.
  induction l as [| x l IH]; intros Himp; simpl; [lia |].
  assert (length (List.filter f l) <= length (List.filter g l))%nat as Hl.
  { apply IH. intros y Hy. apply Himp. right. exact Hy. }
  destruct (f x) eqn:Ef.
  - rewrite (Himp x (or_introl eq_refl) Ef). simpl. lia.
  - destruct (g x); simpl; lia.
Qed.

Lemma sorted_nth (R : A -> A -> Prop) (d : A) (l : list A) :
  StronglySorted R l ->
  forall i j, (i < j < length l)%nat -> R (nth i l d) (nth j l d).
Proof.
  induction 1 as [| x l Hs IH Hall]; intros i j Hij; simpl in *.
  - lia.
  - destruct j as [| j]; [lia |].
    destruct i as [| i].
    + rewrite List.Forall_forall in Hall. apply Hall, nth_In. lia.
    + apply IH. lia.
Qed.

End ListFacts.

(** ** The median and the SPC band *)

Section SpcFacts.
Import Spc.
Local Open Scope Q_scope.

Lemma Qle_bool_transitive : Transitive (fun x y : Q => is_true (Qle_bool x y)).
Proof.
  intros x y z. unfold is_true. rewrite !Qle_bool_iff. apply Qle_trans.
Qed.

Lemma sort_length (a : list Q) : length (QSort.sort a) = length a.
Proof. symmetry. apply Permutation_length, QSort.Permuted_sort. Qed.

Lemma sort_nth_le (a : list Q) (i j : nat) :
  (i <= j < length a)%nat -> nth i (QSort.sort a) 0 <= nth j (QSort.sort a) 0.
Proof.
  intros Hij. destruct (Nat.eq_dec i j) as [-> | Hne]; [apply Qle_refl |].
  apply Qle_bool_iff.
  apply (sorted_nth _ 0 _ (QSort.StronglySorted_sort a Qle_bool_transitive)).
  rewrite sort_length. lia.
Qed.

Lemma count_le_sort (m : Q) (a : list Q) : count_le m a = count_le m (QSort.sort a).
Proof. apply filter_length_perm, QSort.Permuted_sort. Qed.

Lemma count_ge_sort (m : Q) (a : list Q) : count_ge m a = count_ge m (QSort.sort a).
Proof. apply filter_length_perm, QSort.Permuted_sort. Qed.

Lemma half_between (a b : Q) : a <= b -> a <= (a + b) / 2 <= b.
Proof.
  intros H. split.
  - apply Qle_shift_div_l; [reflexivity | Lqa.lra].
  - apply Qle_shift_div_r; [reflexivity | Lqa.lra].
Qed.

(** [np.median] as modelled returns a median. *)
Lemma median_is_median (a : list Q) : is_median (median a) a.
Proof.
  unfold is_median. rewrite count_le_sort, count_ge_sort.
  unfold count_le, count_ge, median.
  pose proof (sort_length a) as Hlen.
  set (s := QSort.sort a) in *. set (n := length a) in *.
  destruct (Nat.even n) eqn:Ev.
  - apply Nat.even_spec in Ev. destruct Ev as [h Hh].
    assert (n / 2 = h)%nat as Hdiv.
    { rewrite Hh. symmetry. apply (Nat.div_unique _ 2%nat h 0%nat); lia. }
    rewrite Hdiv.
    destruct (Nat.eq_dec h 0%nat) as [-> | Hpos]; [lia |].
    assert (nth (h - 1) s 0 <= nth h s 0) as Hmid by (apply sort_nth_le; fold n; lia).
    apply half_between in Hmid. destruct Hmid as [Hl Hr].
    set (m := (nth (h - 1) s 0 + nth h s 0) / 2) in *.
    split.
    + assert (h <= length (List.filter (fun x => Qle_bool x m) s))%nat; [| lia].
      apply (filter_length_prefix _ 0); [lia |].
      intros j Hj. apply Qle_bool_iff.
      apply Qle_trans with (nth (h - 1) s 0); [| exact Hl].
      apply sort_nth_le. fold n. lia.
    + assert (length s - h <= length (List.filter (fun x => Qle_bool m x) s))%nat; [| lia].
      apply (filter_length_suffix _ 0).
      intros j Hj. apply Qle_bool_iff.
      apply Qle_trans with (nth h s 0); [exact Hr |].
      apply sort_nth_le. fold n. lia.
  - assert (Nat.odd n = true) as Od by (rewrite <- Nat.negb_even, Ev; reflexivity).
    apply Nat.odd_spec in Od. destruct Od as [h Hh].
    assert (n / 2 = h)%nat as Hdiv.
    { rewrite Hh. symmetry. apply (Nat.div_unique _ 2%nat h 1%nat); lia. }
    rewrite Hdiv. set (m := nth h s 0). split.
    + assert (S h <= length (List.filter (fun x => Qle_bool x m) s))%nat; [| lia].
      apply (filter_length_prefix _ 0); [lia |].
      intros j Hj. apply Qle_bool_iff, sort_nth_le. fold n. lia.
    + assert (length s - h <= length (List.filter (fun x => Qle_bool m x) s))%nat; [| lia].
      apply (filter_length_suffix _ 0).
      intros j Hj. apply Qle_bool_iff, sort_nth_le. fold n. lia.
Qed.

(** The median of non-negative values is non-negative. *)
Lemma median_nonneg (a : list Q) : Forall (fun x => 0 <= x) a -> 0 <= median a.
Proof.
  intros Hall.
  assert (forall i, 0 <= nth i (QSort.sort a) 0) as Hnth.
  { intros i. destruct (nth_in_or_default i (QSort.sort a) 0) as [Hin | ->]; [| apply Qle_refl].
    apply (Permutation_Forall (QSort.Permuted_sort a)) in Hall.
    rewrite List.Forall_forall in Hall. apply Hall, Hin. }
  unfold median. destruct (Nat.even (length a)); [| apply Hnth].
  pose proof (Hnth (length a / 2 - 1)%nat). pose proof (Hnth (length a / 2)%nat).
  apply Qle_shift_div_l; [reflexivity | Lqa.lra].
Qed.

Lemma deviations_nonneg (satv : list Q) : Forall (fun x => 0 <= x) (deviations satv).
Proof.
  unfold deviations. apply List.Forall_forall. intros y Hy.
  apply in_map_iff in Hy. destruct Hy as [x [<- _]]. apply Qabs_nonneg.
Qed.

Lemma or_else_pos (x d : Q) : 0 <= x -> 0 < d -> 0 < or_else x d.
Proof.
  intros Hx Hd. unfold or_else. destruct (Qeq_bool x 0) eqn:E; [exact Hd |].
  apply Qeq_bool_neq in E. apply Qle_lteq in Hx. destruct Hx as [Hx | Hx]; [exact Hx |].
  exfalso. apply E. symmetry. exact Hx.
Qed.

Lemma mad_pos (satv : list Q) : 0 < mad satv.
Proof.
  unfold mad. apply or_else_pos; [| reflexivity].
  apply median_nonneg, deviations_nonneg.
Qed.

Lemma sigma_pos (satv : list Q) : 0 < sigma satv.
Proof.
  unfold sigma. apply Qmult_lt_0_compat; [reflexivity | apply mad_pos].
Qed.

Lemma Qlt_bool_iff (x y : Q) : Qlt_bool x y = true <-> x < y.
Proof.
  unfold Qlt_bool. rewrite negb_true_iff. split.
  - intros H. apply Qnot_le_lt. intros Hle. apply Qle_bool_iff in Hle. congruence.
  - intros H. destruct (Qle_bool y x) eqn:E; [| reflexivity].
    apply Qle_bool_iff in E. exfalso. exact (Qlt_not_le _ _ H E).
Qed.

End SpcFacts.

Section SpcClaims.
Import Spc.
Local Open Scope Q_scope.

Lemma lo_antitone (satv : list Q) (k1 k2 : Q) : k1 <= k2 -> lo satv k2 <= lo satv k1.
Proof.
  intros Hk. unfold lo.
  assert (k1 * sigma satv <= k2 * sigma satv) as H.
  { apply Qmult_le_compat_r; [exact Hk | apply Qlt_le_weak, sigma_pos]. }
  Lqa.lra.
Qed.

Lemma hi_monotone (satv : list Q) (k1 k2 : Q) : k1 <= k2 -> hi satv k1 <= hi satv k2.
Proof.
  intros Hk. unfold hi.
  assert (k1 * sigma satv <= k2 * sigma satv) as H.
  { apply Qmult_le_compat_r; [exact Hk | apply Qlt_le_weak, sigma_pos]. }
  Lqa.lra.
Qed.

Lemma out_nth (satv : list Q) (k : Q) (i : nat) (x : Q) :
  nth_error satv i = Some x ->
  nth_error (out satv k) i = Some (Qlt_bool x (lo satv k) || Qlt_bool (hi satv k) x).
Proof.
  intros Hx. unfold out. rewrite nth_error_map, Hx. reflexivity.
Qed.

(** C2.  For a non-empty residual series and a multiplier [k >= 0]: the
    center [med] is a median of the series; [mad] is the median of the
    absolute deviations from it, replaced by [1e-9] exactly when that median
    is zero; [sigma = 1.4826 * mad]; the bounds are [med - k*sigma] and
    [med + k*sigma]; and sample [i] is flagged if and only if its value is
    strictly below the lower or strictly above the upper bound, so a value
    equal to a bound is not flagged. *)
Theorem spc_bounds_correct (satv : list Q) (k : Q) :
  satv <> [] -> 0 <= k ->
  let m := med satv in
  let d := median (map (fun x => Qabs (x - m)) satv) in
  is_median m satv
  /\ is_median d (map (fun x => Qabs (x - m)) satv)
  /\ (d == 0 -> mad satv == 1e-9)
  /\ (~ d == 0 -> mad satv == d)
  /\ sigma satv == 1.4826 * mad satv
  /\ lo satv k == m - k * sigma satv
  /\ hi satv k == m + k * sigma satv
  /\ lo satv k <= hi satv k
  /\ length (out satv k) = length satv
  /\ forall i x, nth_error satv i = Some x ->
       (nth_error (out satv k) i = Some true <-> (x < lo satv k \/ hi satv k < x))
       /\ (x == lo satv k \/ x == hi satv k -> nth_error (out satv k) i = Some false).
Proof.
  intros _ Hk m d.
  split; [apply median_is_median |].
  split; [apply median_is_median |].
  split.
  { intros Hd. unfold mad, or_else. fold (med satv) in *. change (deviations satv) with
      (map (fun x => Qabs (x - m)) satv). fold d.
    apply Qeq_bool_iff in Hd. rewrite Hd. reflexivity. }
  split.
  { intros Hd. unfold mad, or_else. change (deviations satv) with
      (map (fun x => Qabs (x - m)) satv). fold d.
    destruct (Qeq_bool d 0) eqn:E; [| reflexivity].
    apply Qeq_bool_iff in E. contradiction. }
  split; [reflexivity |].
  split; [reflexivity |].
  split; [reflexivity |].
  assert (lo satv k <= hi satv k) as Hband.
  { unfold lo, hi.
    assert (0 <= k * sigma satv) as H.
    { apply Qmult_le_0_compat; [exact Hk | apply Qlt_le_weak, sigma_pos]. }
    Lqa.lra. }
  split; [exact Hband |].
  split; [unfold out; apply length_map |].
  intros i x Hx. rewrite (out_nth _ _ _ _ Hx). split.
  - split.
    + intros H. injection H as H. apply orb_true_iff in H.
      rewrite !Qlt_bool_iff in H. exact H.
    + intros H. f_equal. apply orb_true_iff. rewrite !Qlt_bool_iff. exact H.
  - intros Heq. f_equal. apply orb_false_iff. split.
    + destruct (Qlt_bool x (lo satv k)) eqn:E; [| reflexivity].
      apply Qlt_bool_iff in E. destruct Heq as [Heq | Heq]; rewrite Heq in E; Lqa.lra.
    + destruct (Qlt_bool (hi satv k) x) eqn:E; [| reflexivity].
      apply Qlt_bool_iff in E. destruct Heq as [Heq | Heq]; rewrite Heq in E; Lqa.lra.
Qed.

Lemma spc_bounds_correct_witness :
  let satv := [-6; -1; 0; 1; 100] in
  satv <> [] /\ 0 <= 3
  /\ is_median (med satv) satv
  /\ (nth_error (out satv 3) 4 = Some true <-> (100 < lo satv 3 \/ hi satv 3 < 100)).
Proof.
  intros satv.
  assert (satv <> []) as Hne by discriminate.
  assert (0 <= 3) as Hk by (vm_compute; discriminate).
  split; [exact Hne |]. split; [exact Hk |].
  pose proof (spc_bounds_correct satv 3 Hne Hk) as H. cbv zeta in H.
  destruct H as [Hm [_ [_ [_ [_ [_ [_ [_ [_ Hflag]]]]]]]]].
  split; [exact Hm |].
  exact (proj1 (Hflag 4%nat 100 eq_refl)).
Defined.

(** C6, as the code has it.  Widening the band cannot flag more samples:
    for [k1 <= k2] the number of samples flagged with [k2] is at most the
    number flagged with [k1]. *)
Theorem spc_count_antitone (satv : list Q) (k1 k2 : Q) :
  k1 <= k2 -> (flagged_count satv k2 <= flagged_count satv k1)%nat.
Proof.
  intros Hk. unfold flagged_count, Py.count_true, out.
  rewrite !List.filter_map_swap.
  rewrite !length_map.
  apply filter_length_mono. intros x _ H.
  apply orb_true_iff in H. apply orb_true_iff.
  rewrite !Qlt_bool_iff in *.
  pose proof (lo_antitone satv k1 k2 Hk). pose proof (hi_monotone satv k1 k2 Hk).
  destruct H as [H | H]; [left | right]; Lqa.lra.
Qed.

Lemma spc_count_antitone_witness :
  2 <= 5
  /\ (flagged_count [-6; -1; 0; 1; 100]%Q 5 <= flagged_count [-6; -1; 0; 1; 100]%Q 2)%nat.
Proof.
  assert (2 <= 5) as Hk by (vm_compute; discriminate).
  split; [exact Hk |].
  exact (spc_count_antitone [-6; -1; 0; 1; 100]%Q 2 5 Hk).
Defined.

(** C6, as the spec words it, fails: between [k = 2] and [k = 5] the count
    for the series [-6, -1, 0, 1, 100] drops from 2 to 1. *)
Lemma spc_count_monotone_fails :
  2 <= 5
  /\ flagged_count [-6; -1; 0; 1; 100]%Q 2 = 2%nat
  /\ flagged_count [-6; -1; 0; 1; 100]%Q 5 = 1%nat
  /\ ~ (flagged_count [-6; -1; 0; 1; 100]%Q 2 <= flagged_count [-6; -1; 0; 1; 100]%Q 5)%nat.
Proof.
  split; [vm_compute; discriminate |].
  split; [vm_compute; reflexivity |].
  split; [vm_compute; reflexivity |].
  vm_compute. lia.
Qed.

End SpcClaims.

(** ** LOF: neighbour count and missing values *)

Section LofClaims.
Local Open Scope Z_scope.

(** C5, as the code has it.  The neighbour count handed to the detector is
    [min(max(5, k), max(5, N - 1))] for every [k] and [N]: never below 5,
    the clamp of [k] into [[5, N-1]] when there are at least 6 samples, and
    5 when there are fewer. *)
Theorem lof_nn_clamp (zs : list Q) (n_neighbors : Z) :
  let N := Py.len zs in
  5 <= Lof.nn n_neighbors N
  /\ Lof.nn n_neighbors N <= Z.max 5 n_neighbors
  /\ (6 <= N ->
      5 <= Lof.nn n_neighbors N <= N - 1
      /\ Lof.nn n_neighbors N = Z.max 5 (Z.min n_neighbors (N - 1)))
  /\ (N < 6 -> Lof.nn n_neighbors N = 5).
Proof.
  intros N. unfold Lof.nn. repeat split; intros; lia.
Qed.

Lemma lof_nn_clamp_witness :
  let zs := [0; 0; 3]%Q in
  Py.len zs < 6 /\ Lof.nn 35 (Py.len zs) = 5.
Proof.
  intros zs. split; [reflexivity |].
  exact (proj2 (proj2 (proj2 (lof_nn_clamp zs 35))) eq_refl).
Defined.

(** C5, as the spec words it, fails: with 3 samples and [k = 35] the page
    neither fails nor stays within [[5, N-1]]; it asks for 5 neighbours. *)
Lemma lof_nn_small_series :
  Py.len [0; 0; 3]%Q = 3
  /\ Lof.nn 35 (Py.len [0; 0; 3]%Q) = 5
  /\ ~ (5 <= Lof.nn 35 (Py.len [0; 0; 3]%Q) <= Py.len [0; 0; 3]%Q - 1).
Proof.
  split; [reflexivity |]. split; [reflexivity |].
  vm_compute. intros [_ H]. apply H. reflexivity.
Qed.

Lemma fillna_length (v : Q) (s : Lof.series) : length (Lof.fillna v s) = length s.
Proof. unfold Lof.fillna. apply length_map. Qed.

Lemma fillna_nth (v : Q) (s : Lof.series) (i : nat) :
  nth_error (Lof.fillna v s) i
  = option_map (fun o => match o with Some q => q | None => v end) (nth_error s i).
Proof. unfold Lof.fillna. apply nth_error_map. Qed.

(** C10.  A missing value of the feature series is replaced by 0 and every
    other value is kept, at the same position; the detector is run on the
    filled series; and, the detector returning one label per sample, every
    position of the input, missing ones included, has a label and a flag,
    the flag at a position being true exactly when the label at that
    position is -1. *)
Theorem lof_missing_filled
  (fit_predict : Z -> Q -> list Q -> list Z)
  (precipitation : Lof.series) (n_neighbors : Z) (contamination : Q) :
  (forall n c zs, length (fit_predict n c zs) = length zs) ->
  length (Lof.z precipitation) = length precipitation
  /\ (forall i, nth_error precipitation i = Some None ->
                nth_error (Lof.z precipitation) i = Some 0%Q)
  /\ (forall i q, nth_error precipitation i = Some (Some q) ->
                  nth_error (Lof.z precipitation) i = Some q)
  /\ Lof.labels fit_predict precipitation n_neighbors contamination
     = fit_predict (Lof.nn n_neighbors (Py.len (Lof.z precipitation))) contamination
         (Lof.z precipitation)
  /\ length (Lof.out2 fit_predict precipitation n_neighbors contamination)
     = length precipitation
  /\ (forall i, (i < length precipitation)%nat ->
        exists v l,
          nth_error (Lof.z precipitation) i = Some v
          /\ nth_error (Lof.labels fit_predict precipitation n_neighbors contamination) i
             = Some l
          /\ nth_error (Lof.out2 fit_predict precipitation n_neighbors contamination) i
             = Some (l =? -1))
  /\ (forall i,
        nth_error (Lof.out2 fit_predict precipitation n_neighbors contamination) i
        = Some true
        <-> nth_error (Lof.labels fit_predict precipitation n_neighbors contamination) i
            = Some (-1)).
Proof.
  intros Hlen.
  assert (length (Lof.labels fit_predict precipitation n_neighbors contamination)
          = length precipitation) as Hlab.
  { unfold Lof.labels, Lof.z. rewrite Hlen. apply fillna_length. }
  assert (forall i,
            nth_error (Lof.out2 fit_predict precipitation n_neighbors contamination) i
            = option_map (fun l => l =? -1)
                (nth_error (Lof.labels fit_predict precipitation n_neighbors contamination) i))
    as Hflag.
  { intros i. unfold Lof.out2. apply nth_error_map. }
  split; [apply fillna_length |].
  split; [intros i Hi; unfold Lof.z; rewrite fillna_nth, Hi; reflexivity |].
  split; [intros i q Hi; unfold Lof.z; rewrite fillna_nth, Hi; reflexivity |].
  split; [reflexivity |].
  split; [unfold Lof.out2; rewrite length_map; exact Hlab |].
  split.
  - intros i Hi.
    destruct (nth_error (Lof.z precipitation) i) as [v |] eqn:Ev.
    2:{ apply nth_error_None in Ev. unfold Lof.z in Ev. rewrite fillna_length in Ev. lia. }
    destruct (nth_error (Lof.labels fit_predict precipitation n_neighbors contamination) i)
      as [l |] eqn:El.
    2:{ apply nth_error_None in El. lia. }
    exists v, l. split; [reflexivity |]. split; [reflexivity |].
    rewrite Hflag, El. reflexivity.
  - intros i. rewrite Hflag.
    destruct (nth_error (Lof.labels fit_predict precipitation n_neighbors contamination) i)
      as [l |]; simpl; [| split; discriminate].
    split.
    + intros H. injection H as H. apply Z.eqb_eq in H. congruence.
    + intros H. injection H as ->. reflexivity.
Qed.

End LofClaims.

(** ** Rounding to binary64 *)

Section Float64Facts.
Import Float64.
Local Open Scope Q_scope.

(** Rounding to an integer does not cross an integer. *)
Lemma round_half_even_between (q : Q) (a b : Z) :
  inject_Z a <= q -> q <= inject_Z b -> (a <= round_half_even q <= b)%Z.
Proof.
  intros Ha Hb.
  assert (a <= Qfloor q)%Z as Hfa.
  { rewrite <- (Qfloor_Z a). apply Qfloor_resp_le, Ha. }
  assert (Qfloor q <= b)%Z as Hfb.
  { rewrite <- (Qfloor_Z b). apply Qfloor_resp_le, Hb. }
  assert (inject_Z (Qfloor q) < q -> (Qfloor q + 1 <= b)%Z) as Hup.
  { intros Hlt. assert (Qfloor q < b)%Z; [| lia].
    rewrite Zlt_Qlt. eapply Qlt_le_trans; [exact Hlt | exact Hb]. }
  unfold round_half_even.
  destruct (Qcompare_spec (q - inject_Z (Qfloor q)) (1 # 2)) as [He | Hl | Hg].
  - destruct (Z.even (Qfloor q)); [lia |].
    assert (inject_Z (Qfloor q) < q) as Hlt by Lqa.lra.
    specialize (Hup Hlt). lia.
  - lia.
  - assert (inject_Z (Qfloor q) < q) as Hlt by Lqa.lra.
    specialize (Hup Hlt). lia.
Qed.

Lemma pow2_inject (n : Z) : (0 <= n)%Z -> 2 ^ n == inject_Z (2 ^ n).
Proof. intros Hn. symmetry. apply (Zpower_Qpower 2 n Hn). Qed.

Lemma pow2_pos (n : Z) : 0 < 2 ^ n.
Proof. apply Qpower_0_lt. reflexivity. Qed.

(** Rounding to binary64 does not cross an integer either, as long as the
    last place is at most the units. *)
Lemma round_between (q : Q) (a b : Z) :
  inject_Z a <= q -> q <= inject_Z b ->
  (~ q == 0 -> (ulp_exp q <= 0)%Z) ->
  inject_Z a <= round q <= inject_Z b.
Proof.
  intros Ha Hb He. unfold round.
  destruct (Qeq_bool q 0) eqn:E0.
  - apply Qeq_bool_iff in E0. rewrite E0 in Ha, Hb. split; assumption.
  - apply Qeq_bool_neq in E0. specialize (He E0).
    set (e := ulp_exp q) in *.
    assert (2 ^ (- e) == inject_Z (2 ^ (- e))) as Hp by (apply pow2_inject; lia).
    assert (0 < 2 ^ (- e))%Z as Hppos by (apply Z.pow_pos_nonneg; lia).
    assert (2 ^ e == / inject_Z (2 ^ (- e))) as Hinv.
    { rewrite <- Hp. rewrite <- Qpower_opp. rewrite Z.opp_involutive. reflexivity. }
    assert (0 < inject_Z (2 ^ (- e))) as HP.
    { change 0 with (inject_Z 0). rewrite <- Zlt_Qlt. exact Hppos. }
    destruct (round_half_even_between (q * 2 ^ (- e))
                (a * 2 ^ (- e)) (b * 2 ^ (- e))) as [Hl Hu].
    + rewrite Hp, inject_Z_mult. apply Qmult_le_compat_r; [exact Ha | apply Qlt_le_weak, HP].
    + rewrite Hp, inject_Z_mult. apply Qmult_le_compat_r; [exact Hb | apply Qlt_le_weak, HP].
    + rewrite Hinv. split.
      * apply Qle_shift_div_l; [exact HP |]. rewrite <- inject_Z_mult, <- Zle_Qle. exact Hl.
      * apply Qle_shift_div_r; [exact HP |]. rewrite <- inject_Z_mult, <- Zle_Qle. exact Hu.
Qed.

Lemma ilog2_below (q : Q) : 0 < q -> q < inject_Z (2 ^ 53) -> (ilog2 q <= 52)%Z.
Proof.
  intros Hpos Hlt. unfold ilog2.
  set (g := (Z.log2 (Qnum q) - Z.log2 (Z.pos (Qden q)))%Z).
  destruct (Qle_bool (2 ^ g) q) eqn:E.
  - apply Qle_bool_iff in E.
    destruct (Z.le_gt_cases g 52) as [H | H]; [exact H | exfalso].
    assert (inject_Z (2 ^ 53) <= 2 ^ g) as Hge.
    { rewrite pow2_inject by lia. rewrite <- Zle_Qle. apply Z.pow_le_mono_r; lia. }
    Lqa.lra.
  - assert (g <= 53)%Z; [| lia].
    destruct q as [n d]. unfold Qlt in Hpos, Hlt. cbn [Qnum Qden inject_Z] in *.
    unfold g. cbn [Qnum Qden].
    assert (Z.log2 n <= Z.log2 (Z.pos d * 2 ^ 53))%Z as Hlog by (apply Z.log2_le_mono; lia).
    rewrite Z.log2_mul_pow2 in Hlog by lia. lia.
Qed.

Lemma ulp_exp_units (q : Q) :
  0 < q -> q < inject_Z (2 ^ 53) -> (ulp_exp q <= 0)%Z.
Proof.
  intros Hpos Hlt. unfold ulp_exp.
  assert (Qabs q = q) as ->.
  { destruct q as [n d]. unfold Qlt in Hpos. cbn [Qnum Qden] in Hpos.
    unfold Qabs. f_equal. apply Z.abs_eq. lia. }
  pose proof (ilog2_below q Hpos Hlt). lia.
Qed.

(** The binary64 product of an integer below [2^53] and a rational in
    [[0, 1)] stays between any two integers that enclose the exact
    product. *)
Lemma mul_int_between (n : Z) (y : Q) (a b : Z) :
  (0 <= n < 2 ^ 53)%Z -> 0 <= y -> y < 1 ->
  inject_Z a <= inject_Z n * y -> inject_Z n * y <= inject_Z b ->
  inject_Z a <= mul_int n y /\ mul_int n y <= inject_Z b.
Proof.
  intros Hn Hy0 Hy1 Ha Hb. unfold mul_int. set (x := inject_Z n * y) in *.
  assert (0 <= inject_Z n) as Hn0 by (change 0 with (inject_Z 0); rewrite <- Zle_Qle; lia).
  assert (0 <= x) as Hx0 by (apply Qmult_le_0_compat; assumption).
  assert (x <= inject_Z n) as Hxn.
  { unfold x. rewrite <- (Qmult_1_r (inject_Z n)) at 2.
    rewrite !(Qmult_comm (inject_Z n)).
    apply Qmult_le_compat_r; [apply Qlt_le_weak, Hy1 | exact Hn0]. }
  apply round_between; [exact Ha | exact Hb |].
  intros Hne. apply ulp_exp_units.
  - apply Qle_lteq in Hx0.
    destruct Hx0 as [H | H]; [exact H | exfalso; apply Hne; symmetry; exact H].
  - eapply Qle_lt_trans; [exact Hxn |]. rewrite <- Zlt_Qlt. lia.
Qed.

(** Exponent arithmetic for powers of two. *)
Lemma pow2_succ (g : Z) : 2 ^ (g + 1) == 2 * 2 ^ g.
Proof. rewrite Qpower_plus by discriminate. rewrite Qpower_1_r. ring. Qed.

Lemma pow2_diff (a b : Z) : (0 <= a)%Z -> (0 <= b)%Z ->
  2 ^ (a - b) == inject_Z (2 ^ a) / inject_Z (2 ^ b).
Proof.
  intros Ha Hb. unfold Z.sub. rewrite Qpower_plus by discriminate.
  rewrite Qpower_opp, !pow2_inject by assumption. reflexivity.
Qed.

(** [ilog2] is the floor of the binary logarithm. *)
Lemma ilog2_spec (q : Q) : 0 < q -> 2 ^ ilog2 q <= q /\ q < 2 ^ (ilog2 q + 1).
Proof.
  intros Hpos. unfold ilog2.
  set (g := (Z.log2 (Qnum q) - Z.log2 (Z.pos (Qden q)))%Z).
  assert (2 ^ (g - 1) <= q /\ q < 2 ^ (g + 1)) as [Hlo Hhi].
  { destruct q as [n d]. unfold Qlt in Hpos. cbn [Qnum Qden] in *.
    assert (0 < n)%Z as Hn by lia.
    pose proof (Z.log2_spec n Hn) as [Hn1 Hn2].
    pose proof (Z.log2_spec (Z.pos d) ltac:(lia)) as [Hd1 Hd2].
    pose proof (Z.log2_nonneg n) as Hln. pose proof (Z.log2_nonneg (Z.pos d)) as Hld.
    set (ln := Z.log2 n) in *. set (ld := Z.log2 (Z.pos d)) in *.
    assert (0 < 2 ^ ln)%Z as Hpn by (apply Z.pow_pos_nonneg; lia).
    assert (0 < 2 ^ ld)%Z as Hpd by (apply Z.pow_pos_nonneg; lia).
    assert (0 < 2 ^ (ld + 1))%Z as Hpd1 by (apply Z.pow_pos_nonneg; lia).
    assert (0 < 2 ^ (ln + 1))%Z as Hpn1 by (apply Z.pow_pos_nonneg; lia).
    unfold g. cbn [Qnum Qden]. fold ln ld. split.
    - replace (ln - ld - 1)%Z with (ln - (ld + 1))%Z by lia.
      rewrite pow2_diff by lia.
      apply Qle_shift_div_r.
      + change 0 with (inject_Z 0). rewrite <- Zlt_Qlt. exact Hpd1.
      + unfold Qle, Qmult, inject_Z. cbn [Qnum Qden].
        rewrite Pos.mul_1_r, Z.mul_1_r.
        replace (Z.succ ld) with (ld + 1)%Z in Hd2 by lia.
        apply Z.mul_le_mono_nonneg; lia.
    - replace (ln - ld + 1)%Z with ((ln + 1) - ld)%Z by lia.
      rewrite pow2_diff by lia.
      apply Qlt_shift_div_l.
      + change 0 with (inject_Z 0). rewrite <- Zlt_Qlt. exact Hpd.
      + unfold Qlt, Qmult, inject_Z. cbn [Qnum Qden].
        rewrite ?Z.mul_1_r, ?Pos.mul_1_r.
        replace (Z.succ ln) with (ln + 1)%Z in Hn2 by lia.
        apply Z.le_lt_trans with (n * Z.pos d)%Z; [apply Z.mul_le_mono_nonneg_l; lia |].
        apply Z.mul_lt_mono_pos_r; lia. }
  destruct (Qle_bool (2 ^ g) q) eqn:E.
  - apply Qle_bool_iff in E. split; assumption.
  - split; [exact Hlo |]. replace (g - 1 + 1)%Z with g by lia.
    apply Qnot_le_lt. intros H. apply Qle_bool_iff in H. congruence.
Qed.

(** Away from the subnormals the scaled number has its leading bit at
    position 52, so the rounded integer has 53 bits. *)
Lemma significand_range (q : Q) :
  0 < q -> (- 1074 <= ilog2 q - 52)%Z ->
  inject_Z (2 ^ 52) <= q * 2 ^ (- ulp_exp q) /\ q * 2 ^ (- ulp_exp q) < inject_Z (2 ^ 53).
Proof.
  intros Hpos Hnorm. unfold ulp_exp.
  assert (Qabs q = q) as ->.
  { destruct q as [n d]. unfold Qlt in Hpos. cbn [Qnum Qden] in Hpos.
    unfold Qabs. f_equal. apply Z.abs_eq. lia. }
  rewrite Z.max_l by lia.
  destruct (ilog2_spec q Hpos) as [Hlo Hhi].
  set (k := ilog2 q) in *.
  pose proof (pow2_pos (- (k - 52))) as Hp.
  assert (2 ^ k * 2 ^ (- (k - 52)) == inject_Z (2 ^ 52)) as H52.
  { rewrite <- Qpower_plus by discriminate.
    replace (k + - (k - 52))%Z with 52%Z by lia. apply pow2_inject. lia. }
  assert (2 ^ (k + 1) * 2 ^ (- (k - 52)) == inject_Z (2 ^ 53)) as H53.
  { rewrite <- Qpower_plus by discriminate.
    replace (k + 1 + - (k - 52))%Z with 53%Z by lia. apply pow2_inject. lia. }
  split.
  - rewrite <- H52. apply Qmult_le_compat_r; [exact Hlo | apply Qlt_le_weak, Hp].
  - rewrite <- H53. apply Qmult_lt_compat_r; [exact Hp | exact Hhi].
Qed.

(** Rounding to an integer moves a number by at most one half. *)
Lemma round_half_even_near (q : Q) : Qabs (inject_Z (round_half_even q) - q) <= 1 # 2.
Proof.
  pose proof (Qfloor_le q) as Hf. pose proof (Qlt_floor q) as Hc.
  rewrite inject_Z_plus in Hc. change (inject_Z 1) with 1 in Hc.
  unfold round_half_even.
  destruct (Qcompare_spec (q - inject_Z (Qfloor q)) (1 # 2)) as [He | Hl | Hg].
  - destruct (Z.even (Qfloor q)).
    + apply Qabs_Qle_condition. split; Lqa.lra.
    + rewrite inject_Z_plus. change (inject_Z 1) with 1.
      apply Qabs_Qle_condition. split; Lqa.lra.
  - apply Qabs_Qle_condition. split; Lqa.lra.
  - rewrite inject_Z_plus. change (inject_Z 1) with 1.
    apply Qabs_Qle_condition. split; Lqa.lra.
Qed.

(** The rounded value is within half a unit of the last place. *)
Lemma round_error (q : Q) : Qabs (round q - q) <= (1 # 2) * 2 ^ ulp_exp q.
Proof.
  unfold round. destruct (Qeq_bool q 0) eqn:E0.
  - apply Qeq_bool_iff in E0.
    assert (Qabs (0 - q) == 0) as -> by (rewrite E0; reflexivity).
    apply Qmult_le_0_compat; [discriminate | apply Qlt_le_weak, pow2_pos].
  - set (e := ulp_exp q).
    pose proof (pow2_pos e) as Hp. pose proof (pow2_pos (- e)) as Hn.
    assert (2 ^ (- e) * 2 ^ e == 1) as Hone.
    { rewrite <- Qpower_plus by discriminate.
      replace (- e + e)%Z with 0%Z by lia. reflexivity. }
    pose proof (round_half_even_near (q * 2 ^ (- e))) as Hnear.
    set (m := inject_Z (round_half_even (q * 2 ^ (- e)))) in *.
    assert (m * 2 ^ e - q == (m - q * 2 ^ (- e)) * 2 ^ e) as ->.
    { transitivity (m * 2 ^ e - q * (2 ^ (- e) * 2 ^ e)); [rewrite Hone | ]; ring. }
    rewrite Qabs_Qmult, (Qabs_pos (2 ^ e)) by (apply Qlt_le_weak, Hp).
    apply Qmult_le_compat_r; [exact Hnear | apply Qlt_le_weak, Hp].
Qed.

End Float64Facts.

(** ** Spectrogram parameters *)

Section SpectrogramClaims.
Local Open Scope Z_scope.

Lemma int_floor (q : Q) : (0 <= q)%Q -> Py.int q = Qfloor q.
Proof.
  intros Hq. destruct q as [n d]. unfold Py.int, Qfloor. simpl.
  apply Z.quot_div_nonneg; [| reflexivity].
  unfold Qle in Hq. simpl in Hq. lia.
Qed.

(** For [0 <= f < 1] and [n > 0], [floor (n * f)] lies in [[0, n-1]]. *)
Lemma floor_fraction (n : Z) (f : Q) :
  0 < n -> (0 <= f)%Q -> (f < 1)%Q ->
  0 <= Qfloor (inject_Z n * f) <= n - 1.
Proof.
  intros Hn H0 H1.
  assert (0 <= inject_Z n * f)%Q as Hnn.
  { apply Qmult_le_0_compat; [| exact H0]. change 0%Q with (inject_Z 0).
    rewrite <- Zle_Qle. lia. }
  assert (inject_Z n * f < inject_Z n)%Q as Hlt.
  { apply Qlt_le_trans with (inject_Z n * 1)%Q; [| rewrite Qmult_1_r; apply Qle_refl].
    apply Qmult_lt_l; [| exact H1]. change 0%Q with (inject_Z 0).
    rewrite <- Zlt_Qlt. lia. }
  split.
  - change 0 with (Qfloor (inject_Z 0)). apply Qfloor_resp_le. exact Hnn.
  - assert (Qfloor (inject_Z n * f) < n); [| lia].
    rewrite Zlt_Qlt. apply Qle_lt_trans with (inject_Z n * f)%Q; [apply Qfloor_le | exact Hlt].
Qed.

(** C7, as the code has it.  For a non-empty series, a window length below
    [2^53] and an overlap in [[0, 1)], the tab always makes the call, with
    [nperseg = window_len] and [noverlap] the truncated binary64 product
    [nperseg * overlap]: the floor of the exact product or, when the
    product rounds up to the next integer, one more.  So
    [0 <= noverlap <= nperseg], and [noverlap <= nperseg - 1] when
    [nperseg * (1 - overlap) > 1]; the length of the series plays no
    part. *)
Theorem spectrogram_tab_call (s2 : list Q) (window_len : Z) (overlap : Q) :
  s2 <> [] -> 0 < window_len < 2 ^ 53 -> (0 <= overlap)%Q -> (overlap < 1)%Q ->
  let exact := (inject_Z window_len * overlap)%Q in
  let nov := Spectrogram.noverlap window_len overlap in
  Spectrogram.tab s2 window_len overlap = Spectrogram.Call s2 window_len nov
  /\ nov = Qfloor (Float64.mul_int window_len overlap)
  /\ Qfloor exact <= nov <= Qfloor exact + 1
  /\ 0 <= nov <= window_len
  /\ ((1 < inject_Z window_len * (1 - overlap))%Q -> nov <= window_len - 1)
  /\ ((exact == inject_Z (Qfloor exact))%Q -> nov = Qfloor exact).
Proof.
  intros Hne Hw H0 H1 exact nov.
  assert (0 <= inject_Z window_len)%Q as Hw0
    by (change 0%Q with (inject_Z 0); rewrite <- Zle_Qle; lia).
  assert (0 <= exact)%Q as Hx0 by (apply Qmult_le_0_compat; assumption).
  assert (exact < inject_Z window_len)%Q as Hxw.
  { unfold exact. apply Qlt_le_trans with (inject_Z window_len * 1)%Q;
      [| rewrite Qmult_1_r; apply Qle_refl].
    apply Qmult_lt_l; [| exact H1]. change 0%Q with (inject_Z 0).
    rewrite <- Zlt_Qlt. lia. }
  assert (0 <= Qfloor exact) as Hf0.
  { change 0 with (Qfloor (inject_Z 0)). apply Qfloor_resp_le. exact Hx0. }
  assert (Qfloor exact < window_len) as Hfw.
  { rewrite Zlt_Qlt. eapply Qle_lt_trans; [apply Qfloor_le | exact Hxw]. }
  destruct (mul_int_between window_len overlap (Qfloor exact) (Qfloor exact + 1))
    as [Hlo Hhi]; [lia | exact H0 | exact H1 | apply Qfloor_le
                   | apply Qlt_le_weak, Qlt_floor |].
  assert (nov = Qfloor (Float64.mul_int window_len overlap)) as Hnov.
  { unfold nov, Spectrogram.noverlap, Spectrogram.nperseg. apply int_floor.
    eapply Qle_trans; [| exact Hlo]. change 0%Q with (inject_Z 0).
    rewrite <- Zle_Qle. exact Hf0. }
  assert (Qfloor exact <= nov <= Qfloor exact + 1) as Hnear.
  { rewrite Hnov. split.
    - apply Z.le_trans with (Qfloor (inject_Z (Qfloor exact)));
        [rewrite Qfloor_Z; lia | apply Qfloor_resp_le, Hlo].
    - apply Z.le_trans with (Qfloor (inject_Z (Qfloor exact + 1)));
        [apply Qfloor_resp_le, Hhi | rewrite Qfloor_Z; lia]. }
  split.
  { destruct s2 as [| x s2]; [contradiction | reflexivity]. }
  split; [exact Hnov |]. split; [exact Hnear |]. split; [lia |]. split.
  - intros Hhop.
    assert (Qfloor exact < window_len - 1); [| lia].
    rewrite Zlt_Qlt. eapply Qle_lt_trans; [apply Qfloor_le |].
    unfold Zminus. rewrite inject_Z_plus. unfold exact.
    change (inject_Z (- (1))) with (- (1))%Q.
    assert (inject_Z window_len * (1 - overlap)
            == inject_Z window_len - inject_Z window_len * overlap)%Q as Hd by ring.
    rewrite Hd in Hhop. Lqa.lra.
  - intros Hint.
    destruct (mul_int_between window_len overlap (Qfloor exact) (Qfloor exact))
      as [Hl Hu]; [lia | exact H0 | exact H1 | apply Qfloor_le
                   | fold exact; rewrite Hint at 1; apply Qle_refl |].
    rewrite Hnov. apply Z.le_antisymm.
    + apply Z.le_trans with (Qfloor (inject_Z (Qfloor exact)));
        [apply Qfloor_resp_le, Hu | rewrite Qfloor_Z; lia].
    + apply Z.le_trans with (Qfloor (inject_Z (Qfloor exact)));
        [rewrite Qfloor_Z; lia | apply Qfloor_resp_le, Hl].
Qed.

(** C7, as the spec words it, fails: a window of 24 samples on a series of
    3, without overlap, is not refused; the call is made with
    [nperseg = 24]. *)
Lemma spectrogram_long_window :
  Py.len [1; 2; 3]%Q < Spectrogram.nperseg 24
  /\ Spectrogram.tab [1; 2; 3]%Q 24 0 = Spectrogram.Call [1; 2; 3]%Q 24 0
  /\ Spectrogram.tab [1; 2; 3]%Q 24 0 <> Spectrogram.Info.
Proof.
  split; [reflexivity |]. split; [reflexivity | discriminate].
Qed.

End SpectrogramClaims.

(** ** The cosine transform of a constant series *)

Section DctFacts.
Import Dct.
Local Open Scope R_scope.

Lemma dct_length (x : list R) : length (dct x) = length x.
Proof. unfold dct. rewrite length_map, length_seq. reflexivity. Qed.

Lemma idct_length (y : list R) : length (idct y) = length y.
Proof. unfold idct. rewrite length_map, length_seq. reflexivity. Qed.

(** [2 sin a cos b = sin (b + a) - sin (b - a)]. *)
Lemma sin_cos_product (a b : R) : 2 * sin a * cos b = sin (b + a) - sin (b - a).
Proof. rewrite sin_plus, sin_minus. ring. Qed.

(** The cosines of the odd multiples of [a] sum to a difference of two
    sines, up to the factor [2 sin a]. *)
Lemma isum_cos_const (a v : R) (m : nat) :
  forall i,
  2 * sin a * isum (fun n xn => xn * cos ((2 * INR n + 1) * a)) i (repeat v m)
  = v * (sin (2 * INR (i + m) * a) - sin (2 * INR i * a)).
Proof.
  induction m as [| m IH]; intros i; simpl.
  - rewrite Nat.add_0_r. ring.
  - rewrite Rmult_plus_distr_l, IH.
    replace (2 * sin a * (v * cos ((2 * INR i + 1) * a)))
      with (v * (2 * sin a * cos ((2 * INR i + 1) * a))) by ring.
    rewrite sin_cos_product.
    replace ((2 * INR i + 1) * a + a) with (2 * INR (S i) * a) by (rewrite S_INR; ring).
    replace ((2 * INR i + 1) * a - a) with (2 * INR i * a) by ring.
    replace (i + S m)%nat with (S i + m)%nat by lia.
    ring.
Qed.

Lemma angle_range (N k : nat) : (1 <= k < N)%nat -> 0 < angle N k < PI.
Proof.
  intros [Hk HN]. unfold angle.
  assert (1 <= INR k) as H1 by (change 1 with (INR 1); apply le_INR; lia).
  assert (INR k < INR N) as H2 by (apply lt_INR; lia).
  pose proof PI_RGT_0 as Hpi.
  assert (0 < 2 * INR N) as Hden by lra.
  split.
  - apply Rdiv_lt_0_compat; [| exact Hden]. apply Rmult_lt_0_compat; lra.
  - apply Rmult_lt_reg_r with (2 * INR N); [exact Hden |].
    unfold Rdiv. rewrite Rmult_assoc, Rinv_l by lra. rewrite Rmult_1_r.
    apply Rmult_lt_compat_l; lra.
Qed.

Lemma sin_nat_PI (k : nat) : sin (INR k * PI) = 0.
Proof.
  apply sin_eq_0_1. exists (Z.of_nat k). rewrite INR_IZR_INZ. reflexivity.
Qed.

(** Every coefficient of a constant series but the first is zero. *)
Lemma dct_coeff_const (v : R) (N k : nat) :
  (1 <= k < N)%nat -> dct_coeff (repeat v N) k = 0.
Proof.
  intros Hk. unfold dct_coeff. rewrite repeat_length.
  pose proof (angle_range N k Hk) as [Ha0 Ha1].
  pose proof (isum_cos_const (angle N k) v N 0) as Hsum.
  assert (INR N <> 0) as HN by (apply not_0_INR; lia).
  replace (2 * INR (0 + N) * angle N k) with (INR k * PI) in Hsum
    by (unfold angle; simpl; field; exact HN).
  replace (2 * INR 0 * angle N k) with 0 in Hsum by (simpl; ring).
  rewrite sin_nat_PI, sin_0 in Hsum.
  assert (0 < sin (angle N k)) as Hsin by (apply sin_gt_0; assumption).
  assert (isum (fun n xn => xn * cos ((2 * INR n + 1) * angle N k)) 0 (repeat v N) = 0) as H0.
  { apply Rmult_eq_reg_l with (2 * sin (angle N k)); [| lra]. rewrite Hsum. ring. }
  rewrite H0. ring.
Qed.

Lemma isum_zeros (f : nat -> R) (m : nat) :
  forall i, isum (fun k yk => yk * f k) i (repeat 0 m) = 0.
Proof.
  induction m as [| m IH]; intros i; simpl; [reflexivity |].
  rewrite IH. ring.
Qed.

Lemma map_const_repeat {A B : Type} (f : A -> B) (b : B) (l : list A) :
  (forall a, In a l -> f a = b) -> map f l = repeat b (length l).
Proof.
  induction l as [| a l IH]; intros H; simpl; [reflexivity |].
  rewrite (H a (or_introl eq_refl)), IH; [reflexivity |].
  intros a' Ha'. apply H. right. exact Ha'.
Qed.

(** The inverse transform of the zero series is the zero series. *)
Lemma idct_zeros (N : nat) : idct (repeat 0 N) = repeat 0 N.
Proof.
  unfold idct. rewrite repeat_length.
  rewrite (map_const_repeat _ 0); [rewrite length_seq; reflexivity |].
  intros n _. unfold idct_sample. destruct N as [| N]; simpl repeat; [reflexivity |].
  cbv iota beta. rewrite isum_zeros. unfold Rdiv. ring.
Qed.

(** Past its first coefficient the transform of a constant series is zero. *)
Lemma dct_const_tail (v : R) (N c : nat) :
  (1 <= c)%nat -> skipn c (dct (repeat v N)) = repeat 0 (N - c).
Proof.
  intros Hc. unfold dct. rewrite repeat_length, skipn_map, skipn_seq.
  rewrite (map_const_repeat _ 0); [rewrite length_seq; reflexivity |].
  intros k Hk. apply in_seq in Hk. apply dct_coeff_const. lia.
Qed.

(** *** The inverse transform undoes the transform *)

Lemma rsum_ext (f g : nat -> R) (len : nat) :
  forall start,
  (forall i, (start <= i < start + len)%nat -> f i = g i) ->
  rsum f start len = rsum g start len.
Proof.
  induction len as [| len IH]; intros start H; simpl; [reflexivity |].
  rewrite (H start) by lia. rewrite (IH (S start)); [reflexivity |].
  intros i Hi. apply H. lia.
Qed.

Lemma rsum_scal (c : R) (f : nat -> R) (len : nat) :
  forall start, rsum (fun i => c * f i) start len = c * rsum f start len.
Proof.
  induction len as [| len IH]; intros start; simpl; [ring |].
  rewrite IH. ring.
Qed.

Lemma rsum_plus (f g : nat -> R) (len : nat) :
  forall start, rsum (fun i => f i + g i) start len = rsum f start len + rsum g start len.
Proof.
  induction len as [| len IH]; intros start; simpl; [ring |].
  rewrite IH. ring.
Qed.

Lemma rsum_zero (len : nat) : forall start, rsum (fun _ => 0) start len = 0.
Proof.
  induction len as [| len IH]; intros start; simpl; [reflexivity |].
  rewrite IH. ring.
Qed.

Lemma rsum_const (c : R) (len : nat) : forall start, rsum (fun _ => c) start len = INR len * c.
Proof.
  induction len as [| len IH]; intros start; [simpl; ring |].
  rewrite S_INR. simpl. rewrite IH. ring.
Qed.

Lemma rsum_swap (f : nat -> nat -> R) (l1 l2 : nat) :
  forall s1 s2,
  rsum (fun i => rsum (fun j => f i j) s2 l2) s1 l1
  = rsum (fun j => rsum (fun i => f i j) s1 l1) s2 l2.
Proof.
  induction l1 as [| l1 IH]; intros s1 s2; simpl.
  - rewrite rsum_zero. reflexivity.
  - rewrite IH, <- rsum_plus. reflexivity.
Qed.

(** A sum that picks one index. *)
Lemma rsum_pick (f : nat -> R) (n len : nat) :
  forall start, (start <= n < start + len)%nat ->
  rsum (fun m => f m * (if Nat.eqb m n then 1 else 0)) start len = f n.
Proof.
  induction len as [| len IH]; intros start Hn; [lia |]. simpl.
  destruct (Nat.eqb start n) eqn:E.
  - apply Nat.eqb_eq in E. subst start.
    rewrite (rsum_ext _ (fun _ => 0)), rsum_zero; [ring |].
    intros i Hi. destruct (Nat.eqb i n) eqn:E'; [| ring].
    apply Nat.eqb_eq in E'. lia.
  - apply Nat.eqb_neq in E. rewrite IH by lia. ring.
Qed.

Lemma isum_rsum (g : nat -> R -> R) (l : list R) :
  forall start,
  isum g start l = rsum (fun i => g i (nth (i - start) l 0)) start (length l).
Proof.
  induction l as [| x l IH]; intros start; simpl; [reflexivity |].
  rewrite Nat.sub_diag. f_equal. rewrite IH.
  apply rsum_ext. intros i Hi.
  replace (i - start)%nat with (S (i - S start)) by lia. reflexivity.
Qed.

Lemma isum_map_seq (g : nat -> R -> R) (c : nat -> R) (len : nat) :
  forall start,
  isum g start (map c (seq start len)) = rsum (fun k => g k (c k)) start len.
Proof.
  induction len as [| len IH]; intros start; simpl; [reflexivity |].
  rewrite IH. reflexivity.
Qed.


Lemma cos_cos_product (a b : R) : cos a * cos b = (cos (a - b) + cos (a + b)) / 2.
Proof. rewrite cos_minus, cos_plus. field. Qed.

(** The cosines of an arithmetic progression, up to the factor
    [2 sin (t/2)]. *)
Lemma rsum_cos_progression (t : R) (len : nat) :
  forall start,
  2 * sin (t / 2) * rsum (fun k => cos (INR k * t)) start len
  = sin ((INR (start + len) - 1 / 2) * t) - sin ((INR start - 1 / 2) * t).
Proof.
  induction len as [| len IH]; intros start; simpl rsum.
  - rewrite Nat.add_0_r. ring.
  - rewrite Rmult_plus_distr_l, IH, sin_cos_product.
    replace (INR start * t + t / 2) with ((INR (S start) - 1 / 2) * t)
      by (rewrite S_INR; field).
    replace (INR start * t - t / 2) with ((INR start - 1 / 2) * t) by field.
    replace (start + S len)%nat with (S start + len)%nat by lia.
    ring.
Qed.

Lemma cos_nat_PI (j : nat) : cos (INR j * PI) = if Nat.even j then 1 else -1.
Proof.
  induction j as [| j IH].
  - simpl. rewrite Rmult_0_l. apply cos_0.
  - rewrite S_INR, Rmult_plus_distr_r, Rmult_1_l, neg_cos, IH.
    rewrite Nat.even_succ, <- Nat.negb_even.
    destruct (Nat.even j); simpl; ring.
Qed.

(** [sum_{k=1}^{N-1} cos (k j pi / N)] for [0 < j < 2N]. *)
Lemma cos_sum_value (N j : nat) :
  (0 < j < 2 * N)%nat ->
  rsum (fun k => cos (INR k * (INR j * PI / INR N))) 1 (N - 1)
  = - (1 + cos (INR j * PI)) / 2.
Proof.
  intros Hj.
  assert (0 < INR N) as HN by (apply lt_0_INR; lia).
  assert (0 < INR j) as Hj0 by (apply lt_0_INR; lia).
  assert (INR j < 2 * INR N) as Hj1.
  { replace (2 * INR N) with (INR (2 * N)) by (rewrite mult_INR; simpl; ring).
    apply lt_INR. lia. }
  pose proof PI_RGT_0 as Hpi.
  set (t := INR j * PI / INR N).
  assert (0 < t / 2 < PI) as [Ht0 Ht1].
  { unfold t. split.
    - apply Rdiv_lt_0_compat; [| lra]. apply Rdiv_lt_0_compat; [| exact HN].
      apply Rmult_lt_0_compat; lra.
    - apply Rmult_lt_reg_r with (2 * INR N); [lra |].
      replace (INR j * PI / INR N / 2 * (2 * INR N)) with (INR j * PI) by (field; lra).
      rewrite (Rmult_comm PI). apply Rmult_lt_compat_r; lra. }
  assert (0 < sin (t / 2)) as Hsin by (apply sin_gt_0; assumption).
  pose proof (rsum_cos_progression t (N - 1) 1) as H.
  replace (1 + (N - 1))%nat with N in H by lia.
  replace ((INR N - 1 / 2) * t) with (INR j * PI - t / 2) in H by (unfold t; field; lra).
  replace ((INR 1 - 1 / 2) * t) with (t / 2) in H by (simpl; field).
  rewrite sin_minus, sin_nat_PI in H.
  apply Rmult_eq_reg_l with (2 * sin (t / 2)); [| lra].
  rewrite H. field.
Qed.


Lemma kernel_sym (N m n : nat) : kernel N m n = kernel N n m.
Proof.
  unfold kernel. f_equal. f_equal. apply rsum_ext. intros k _. ring.
Qed.

Lemma kernel_sums (N m n : nat) :
  (m <= n < N)%nat ->
  rsum (fun k => cos ((2 * INR m + 1) * angle N k) * cos ((2 * INR n + 1) * angle N k))
    1 (N - 1)
  = (rsum (fun k => cos (INR k * (INR (n - m) * PI / INR N))) 1 (N - 1)
     + rsum (fun k => cos (INR k * (INR (m + n + 1) * PI / INR N))) 1 (N - 1)) / 2.
Proof.
  intros Hmn.
  assert (INR N <> 0) as HN by (apply not_0_INR; lia).
  transitivity
    (rsum (fun k => / 2 * (cos (INR k * (INR (n - m) * PI / INR N))
                           + cos (INR k * (INR (m + n + 1) * PI / INR N)))) 1 (N - 1)).
  2:{ rewrite rsum_scal, rsum_plus. field. }
  apply rsum_ext. intros k _.
  rewrite Rmult_comm, cos_cos_product.
  replace ((2 * INR n + 1) * angle N k - (2 * INR m + 1) * angle N k)
    with (INR k * (INR (n - m) * PI / INR N))
    by (rewrite minus_INR by lia; unfold angle; field; exact HN).
  replace ((2 * INR n + 1) * angle N k + (2 * INR m + 1) * angle N k)
    with (INR k * (INR (m + n + 1) * PI / INR N))
    by (rewrite !plus_INR; unfold angle; simpl; field; exact HN).
  field.
Qed.

Lemma kernel_diag (N n : nat) : (n < N)%nat -> kernel N n n = 1.
Proof.
  intros Hn.
  assert (INR N <> 0) as HN by (apply not_0_INR; lia).
  unfold kernel. rewrite kernel_sums by lia.
  rewrite Nat.sub_diag.
  rewrite (rsum_ext _ (fun _ => 1)), rsum_const.
  2:{ intros k _. simpl. unfold Rdiv. rewrite !Rmult_0_l, Rmult_0_r. apply cos_0. }
  rewrite cos_sum_value by lia. rewrite cos_nat_PI.
  replace (n + n + 1)%nat with (S (0 + 2 * n)) by lia.
  rewrite Nat.even_succ, Nat.odd_add_mul_2. simpl Nat.odd. cbv iota.
  rewrite minus_INR by lia. simpl. field. exact HN.
Qed.

Lemma kernel_off_diag (N m n : nat) : (m < n < N)%nat -> kernel N m n = 0.
Proof.
  intros Hmn.
  assert (INR N <> 0) as HN by (apply not_0_INR; lia).
  unfold kernel. rewrite kernel_sums by lia.
  rewrite !cos_sum_value by lia. rewrite !cos_nat_PI.
  replace (m + n + 1)%nat with (S ((n - m) + 2 * m)) by lia.
  rewrite Nat.even_succ, Nat.odd_add_mul_2, <- Nat.negb_even.
  destruct (Nat.even (n - m)); simpl; field; exact HN.
Qed.

Lemma kernel_delta (N m n : nat) :
  (m < N)%nat -> (n < N)%nat -> kernel N m n = if Nat.eqb m n then 1 else 0.
Proof.
  intros Hm Hn. destruct (Nat.eqb m n) eqn:E.
  - apply Nat.eqb_eq in E. subst m. apply kernel_diag, Hn.
  - apply Nat.eqb_neq in E. destruct (Nat.lt_ge_cases m n) as [Hlt | Hge].
    + apply kernel_off_diag. lia.
    + rewrite kernel_sym. apply kernel_off_diag. lia.
Qed.


Lemma scale_first (N : nat) : (0 < N)%nat -> scale N 0 * 2 / sqrt (INR N) = 1 / INR N.
Proof.
  intros HN. assert (0 < INR N) as H by (apply lt_0_INR; exact HN).
  assert (0 < sqrt (INR N)) as Hr by (apply sqrt_lt_R0; exact H).
  pose proof (sqrt_sqrt (INR N) (Rlt_le _ _ H)) as Hsq.
  unfold scale. remember (sqrt (INR N)) as r eqn:Er.
  rewrite (sqrt_lem_1 (1 / (4 * INR N)) (1 / (2 * r))).
  - rewrite <- Hsq. field. lra.
  - apply Rlt_le, Rdiv_lt_0_compat; lra.
  - apply Rlt_le, Rdiv_lt_0_compat; lra.
  - rewrite <- Hsq. field. lra.
Qed.

Lemma scale_rest (N k : nat) :
  (0 < N)%nat -> sqrt (2 / INR N) * (scale N (S k) * 2) = 2 / INR N.
Proof.
  intros HN. assert (0 < INR N) as H by (apply lt_0_INR; exact HN).
  unfold scale. rewrite <- Rmult_assoc, <- sqrt_mult.
  - replace (2 / INR N * (1 / (2 * INR N))) with ((1 / INR N) * (1 / INR N)) by (field; lra).
    rewrite sqrt_square; [field; lra |].
    apply Rlt_le, Rdiv_lt_0_compat; lra.
  - apply Rlt_le, Rdiv_lt_0_compat; lra.
  - apply Rlt_le, Rdiv_lt_0_compat; lra.
Qed.

Lemma dct_cons (x : list R) :
  x <> [] -> dct x = dct_coeff x 0 :: map (dct_coeff x) (seq 1 (length x - 1)).
Proof.
  intros Hx. unfold dct. destruct x as [| a x]; [contradiction |].
  simpl. rewrite ?Nat.sub_0_r. reflexivity.
Qed.

Lemma dct_coeff_rsum (x : list R) (k : nat) :
  dct_coeff x k
  = scale (length x) k
    * 2 * rsum (fun m => nth m x 0 * cos ((2 * INR m + 1) * angle (length x) k)) 0 (length x).
Proof.
  unfold dct_coeff. rewrite isum_rsum, Rmult_assoc. f_equal. f_equal.
  apply rsum_ext. intros m _. rewrite Nat.sub_0_r. reflexivity.
Qed.

(** The inverse transform undoes the transform, sample by sample. *)
Lemma idct_dct_sample (x : list R) (n : nat) :
  (n < length x)%nat -> idct_sample (dct x) n = nth n x 0.
Proof.
  intros Hn. set (N := length x).
  assert (x <> []) as Hx by (intros ->; simpl in Hn; lia).
  assert (0 < N)%nat as HN by (unfold N; lia).
  assert (INR N <> 0) as HN0 by (apply not_0_INR; lia).
  rewrite dct_cons by exact Hx. unfold idct_sample.
  simpl length. rewrite length_map, length_seq. fold N.
  replace (S (N - 1)) with N by lia.
  rewrite isum_map_seq.
  rewrite (rsum_ext _ (fun k => 2 / INR N * / sqrt (2 / INR N)
             * rsum (fun m => nth m x 0 * (cos ((2 * INR m + 1) * angle N k)
                                          * cos ((2 * INR n + 1) * angle N k))) 0 N)).
  2:{ intros k Hk. rewrite dct_coeff_rsum. fold N.
      destruct k as [| k]; [lia |].
      rewrite (rsum_ext (fun m => nth m x 0 * (cos ((2 * INR m + 1) * angle N (S k))
                                     * cos ((2 * INR n + 1) * angle N (S k))))
                 (fun m => cos ((2 * INR n + 1) * angle N (S k))
                           * (nth m x 0 * cos ((2 * INR m + 1) * angle N (S k)))))
        by (intros m _; ring).
      rewrite rsum_scal.
      pose proof (scale_rest N k HN) as Hsc.
      assert (0 < sqrt (2 / INR N)) as Hs.
      { apply sqrt_lt_R0, Rdiv_lt_0_compat; [lra | apply lt_0_INR; exact HN]. }
      remember (sqrt (2 / INR N)) as r eqn:Er.
      rewrite <- Hsc. field. lra. }
  rewrite rsum_scal, rsum_swap.
  rewrite dct_coeff_rsum. fold N.
  rewrite (rsum_ext (fun m => nth m x 0 * cos ((2 * INR m + 1) * angle N 0))
             (fun m => nth m x 0)).
  2:{ intros m _. unfold angle. simpl INR. unfold Rdiv. rewrite Rmult_0_r, Rmult_0_l, Rmult_0_r.
      rewrite cos_0. ring. }
  assert (0 < sqrt (2 / INR N)) as Hs.
  { apply sqrt_lt_R0, Rdiv_lt_0_compat; [lra | apply lt_0_INR; exact HN]. }
  transitivity (rsum (fun m => nth m x 0 * kernel N m n) 0 N).
  - unfold kernel.
    rewrite (rsum_ext (fun m => nth m x 0 * (1 / INR N + 2 / INR N * rsum _ 1 (N - 1)))
               (fun m => 1 / INR N * nth m x 0
                         + 2 / INR N * rsum (fun k => nth m x 0
                             * (cos ((2 * INR m + 1) * angle N k)
                                * cos ((2 * INR n + 1) * angle N k))) 1 (N - 1)))
      by (intros m _; rewrite rsum_scal; ring).
    rewrite rsum_plus, !rsum_scal.
    pose proof (scale_first N HN) as H1.
    replace (scale N 0 * 2 * rsum (fun m => nth m x 0) 0 N / sqrt (INR N))
      with (scale N 0 * 2 / sqrt (INR N) * rsum (fun m => nth m x 0) 0 N).
    2:{ unfold Rdiv. ring. }
    rewrite H1. field. split; lra.
  - rewrite (rsum_ext _ (fun m => nth m x 0 * (if Nat.eqb m n then 1 else 0))).
    + apply (rsum_pick (fun m => nth m x 0)). lia.
    + intros m Hm. rewrite kernel_delta by (fold N in Hn; lia). reflexivity.
Qed.

(** The inverse transform undoes the transform: the matrix of [idct] is the
    transpose of that of [dct], so the transform is orthonormal. *)
Lemma idct_dct (x : list R) : idct (dct x) = x.
Proof.
  unfold idct. rewrite dct_length.
  apply nth_ext with (d := 0) (d' := 0).
  - rewrite length_map, length_seq. reflexivity.
  - intros n Hn. rewrite length_map, length_seq in Hn.
    rewrite (nth_indep _ 0 (idct_sample (dct x) 0)) by (rewrite length_map, length_seq; exact Hn).
    rewrite map_nth, seq_nth by exact Hn. simpl. apply idct_dct_sample, Hn.
Qed.

End DctFacts.

(** ** The SATV filter *)

Section SliceFacts.
Context {A : Type}.

Lemma slice_stop_le (stop n : Z) : (0 <= n)%Z -> (Z.of_nat (Py.slice_stop stop n) <= n)%Z.
Proof.
  intros Hn. unfold Py.slice_stop. destruct (stop <? 0)%Z eqn:E; lia.
Qed.

Lemma slice_fill_length (stop : Z) (v : A) (x : list A) :
  length (Py.slice_fill stop v x) = length x.
Proof.
  unfold Py.slice_fill.
  pose proof (slice_stop_le stop (Py.len x)) as H. unfold Py.len in *.
  rewrite length_app, repeat_length, length_skipn. lia.
Qed.

(** With a stop inside the array the slice is the first [stop] elements. *)
Lemma slice_fill_prefix (stop : Z) (v : A) (x : list A) :
  (0 <= stop <= Py.len x)%Z ->
  Py.slice_fill stop v x = repeat v (Z.to_nat stop) ++ skipn (Z.to_nat stop) x.
Proof.
  intros H. unfold Py.slice_fill, Py.slice_stop.
  destruct (stop <? 0)%Z eqn:E; [lia |].
  rewrite Z.min_l by lia. reflexivity.
Qed.

End SliceFacts.

Section SatvFacts.
Context {V : Type}.
Variable zero : V.
Variables dct idct : list V -> list V.
Hypothesis dct_keeps_length : forall x, length (dct x) = length x.
Hypothesis idct_keeps_length : forall y, length (idct y) = length y.

Lemma cutoff_floor (n : Z) (frac : Q) :
  (0 <= n)%Z -> (0 <= frac)%Q -> cutoff n frac = Qfloor (inject_Z n * frac).
Proof.
  intros Hn Hf. unfold cutoff. apply int_floor.
  apply Qmult_le_0_compat; [| exact Hf]. change 0%Q with (inject_Z 0).
  rewrite <- Zle_Qle. exact Hn.
Qed.

(** The number of zeroed coefficients lies in [[1, N-1]]. *)
Lemma zeroed_count_range (N : nat) (frac : Q) :
  2 <= N -> (0 < frac)%Q -> (frac < 1)%Q ->
  1 <= Z.to_nat (Z.max 1 (Qfloor (inject_Z (Z.of_nat N) * frac))) < N.
Proof.
  intros HN H0 H1.
  pose proof (floor_fraction (Z.of_nat N) frac) as H.
  destruct H as [Hlo Hhi]; [lia | apply Qlt_le_weak, H0 | exact H1 |]. lia.
Qed.

Lemma satv_coeffs_prefix (s : list V) (frac : Q) :
  2 <= length s -> (0 < frac)%Q -> (frac < 1)%Q ->
  let c := Z.to_nat (Z.max 1 (Qfloor (inject_Z (Z.of_nat (length s)) * frac))) in
  satv_coeffs zero dct s frac = repeat zero c ++ skipn c (dct s).
Proof.
  intros HN H0 H1 c. unfold satv_coeffs.
  pose proof (zeroed_count_range (length s) frac HN H0 H1) as Hc. fold c in Hc.
  unfold Py.len. rewrite dct_keeps_length.
  rewrite cutoff_floor; [| lia | apply Qlt_le_weak, H0].
  apply slice_fill_prefix. unfold Py.len. rewrite dct_keeps_length. lia.
Qed.


End SatvFacts.

Section SatvClaims.
Local Open Scope R_scope.


(** C8.  The residual of a constant series of length [N >= 2] is zero at
    every index, for every [0 < keepFraction < 1]. *)
Theorem satv_constant_series (v : R) (N : nat) (dct_keep_frac : Q) :
  (2 <= N)%nat -> (0 < dct_keep_frac)%Q -> (dct_keep_frac < 1)%Q ->
  satv_real (repeat v N) dct_keep_frac = repeat 0 N.
Proof.
  intros HN H0 H1.
  assert (2 <= length (repeat v N))%nat as HN' by (rewrite repeat_length; exact HN).
  pose proof (satv_coeffs_prefix 0 Dct.dct dct_length (repeat v N) dct_keep_frac HN' H0 H1)
    as Heq.
  pose proof (zeroed_count_range (length (repeat v N)) dct_keep_frac HN' H0 H1) as Hc.
  cbv zeta in Heq. rewrite repeat_length in Heq, Hc.
  set (c := Z.to_nat (Z.max 1 (Qfloor (inject_Z (Z.of_nat N) * dct_keep_frac)))) in *.
  unfold satv_real, satv. rewrite Heq, dct_const_tail by lia.
  rewrite <- repeat_app. replace (c + (N - c))%nat with N by lia.
  apply idct_zeros.
Qed.

End SatvClaims.

(** ** The tabs leave their input arrays alone *)

Section TabFacts.
Context {V : Type}.
Variable zero : V.
Variables dct idct : list V -> list V.
Variable spc : list V -> Q -> list bool.
Variable fillna0 : list V -> list V.
Variable fit_predict : Z -> Q -> list V -> list Z.

Lemma fresh_unused (h : gmap nat (list V)) : h !! fresh (dom h) = None.
Proof. apply not_elem_of_dom, is_fresh. Qed.

Lemma fresh_other (h : gmap nat (list V)) (l : nat) (a : list V) :
  h !! l = Some a -> fresh (dom h) <> l.
Proof.
  intros Hl Heq. rewrite <- Heq, fresh_unused in Hl. discriminate.
Qed.

(** Allocation keeps every array of the store. *)
Lemma new_array_keeps (b : list V) (h : gmap nat (list V)) (l : nat) (a : list V) :
  h !! l = Some a -> (new_array b h).2 !! l = Some a.
Proof.
  intros Hl. unfold new_array. simpl.
  rewrite lookup_insert_ne by (eapply fresh_other; exact Hl). exact Hl.
Qed.

Lemma new_array_holds (b : list V) (h : gmap nat (list V)) :
  (new_array b h).2 !! (new_array b h).1 = Some b.
Proof. unfold new_array. simpl. apply lookup_insert_eq. Qed.

(** The store after the SPC tab, step by step. *)
Lemma spc_tab_run (h : gmap nat (list V)) (temperature : nat) (s : list V)
    (dct_keep_frac k_sigma : Q) :
  h !! temperature = Some s ->
  let x := fresh (dom h) in
  let h1 := <[x := satv_coeffs zero dct s dct_keep_frac]> h in
  let r := fresh (dom h1) in
  spc_tab zero dct idct spc temperature dct_keep_frac k_sigma h
  = ((r, spc (satv zero dct idct s dct_keep_frac) k_sigma),
     <[r := satv zero dct idct s dct_keep_frac]> h1).
Proof.
  intros Hs x h1 r. unfold spc_tab, bind, contents, new_array, modify, ret.
  rewrite Hs. simpl. fold x.
  rewrite lookup_insert_eq. simpl.
  rewrite alter_insert_eq, !lookup_insert_eq. simpl.
  reflexivity.
Qed.

Lemma lof_tab_run (h : gmap nat (list V)) (precipitation : nat) (s : list V)
    (n_neighbors : Z) (contamination : Q) :
  h !! precipitation = Some s ->
  let z := fresh (dom h) in
  lof_tab fillna0 fit_predict precipitation n_neighbors contamination h
  = ((z, map (fun l => (l =? -1)%Z)
           (fit_predict (Lof.nn n_neighbors (Py.len (fillna0 s))) contamination (fillna0 s))),
     <[z := fillna0 s]> h).
Proof.
  intros Hs z. unfold lof_tab, bind, contents, new_array, ret.
  rewrite Hs. simpl. fold z. rewrite lookup_insert_eq. reflexivity.
Qed.

(** C9.  Started in a store where the input column lives at [col] with
    contents [s], either tab ends in a store where [col] still holds [s],
    and so does every other array that existed before; the only write in
    place goes to the array that [dct] returned.  The array a tab returns
    holds the residual, respectively the filled feature column. *)
Theorem tabs_keep_input (h : gmap nat (list V)) (col : nat) (s : list V)
    (dct_keep_frac k_sigma : Q) (n_neighbors : Z) (contamination : Q) :
  h !! col = Some s ->
  let spc_end := spc_tab zero dct idct spc col dct_keep_frac k_sigma h in
  let lof_end := lof_tab fillna0 fit_predict col n_neighbors contamination h in
  (spc_end.2 !! col = Some s
   /\ (forall l a, h !! l = Some a -> spc_end.2 !! l = Some a)
   /\ spc_end.2 !! spc_end.1.1 = Some (satv zero dct idct s dct_keep_frac))
  /\ (lof_end.2 !! col = Some s
      /\ (forall l a, h !! l = Some a -> lof_end.2 !! l = Some a)
      /\ lof_end.2 !! lof_end.1.1 = Some (fillna0 s)).
Proof.
  intros Hs spc_end lof_end.
  assert (forall l a, h !! l = Some a -> spc_end.2 !! l = Some a) as Hspc.
  { intros l a Hl. unfold spc_end. rewrite (spc_tab_run h col s _ _ Hs). simpl.
    pose proof (new_array_keeps (satv_coeffs zero dct s dct_keep_frac) h l a Hl) as H1.
    exact (new_array_keeps _ _ l a H1). }
  assert (forall l a, h !! l = Some a -> lof_end.2 !! l = Some a) as Hlof.
  { intros l a Hl. unfold lof_end. rewrite (lof_tab_run h col s _ _ Hs). simpl.
    exact (new_array_keeps _ h l a Hl). }
  split; split.
  - apply Hspc, Hs.
  - split; [exact Hspc |].
    unfold spc_end. rewrite (spc_tab_run h col s _ _ Hs). simpl. apply lookup_insert_eq.
  - apply Hlof, Hs.
  - split; [exact Hlof |].
    unfold lof_end. rewrite (lof_tab_run h col s _ _ Hs). simpl. apply lookup_insert_eq.
Qed.

End TabFacts.

(** ** Instances on concrete inputs *)

Lemma lof_missing_filled_witness :
  let detector := fun (_ : Z) (_ : Q) (zs : list Q) =>
                    map (fun v => if Qle_bool 3 v then (-1)%Z else 1%Z) zs in
  let precipitation := [Some 1%Q; None; Some 3%Q] in
  (forall n c zs, length (detector n c zs) = length zs)
  /\ nth_error (Lof.z precipitation) 1 = Some 0%Q
  /\ length (Lof.out2 detector precipitation 35 (1 # 100)) = 3
  /\ nth_error (Lof.out2 detector precipitation 35 (1 # 100)) 2 = Some true.
Proof.
  intros detector precipitation.
  assert (forall n c zs, length (detector n c zs) = length zs) as Hlen
    by (intros n c zs; apply length_map).
  split; [exact Hlen |].
  pose proof (lof_missing_filled detector precipitation 35 (1 # 100) Hlen) as H.
  destruct H as [_ [Hnone [_ [_ [Hout [_ Hflag]]]]]].
  split; [apply Hnone; reflexivity |]. split; [exact Hout |].
  apply Hflag. reflexivity.
Defined.

(** The product of line 113 at two pairs of widget values: at 360 and 0.35
    it is just below 126, and at 120 and 0.15 it rounds up to 18 although
    the exact product of the two floats is below 18. *)
Lemma noverlap_widget_values :
  Spectrogram.noverlap 360 (3152519739159347 # 9007199254740992) = 125%Z
  /\ Spectrogram.noverlap 120 (5404319552844595 # 36028797018963968) = 18%Z
  /\ Qfloor (inject_Z 120 * (5404319552844595 # 36028797018963968)) = 17%Z
  /\ (Float64.round (1 # 10) == 3602879701896397 # 36028797018963968)%Q.
Proof.
  split; [vm_compute; reflexivity |]. split; [vm_compute; reflexivity |].
  split; vm_compute; reflexivity.
Qed.

Lemma spectrogram_tab_call_witness :
  let overlap := (3152519739159347 # 9007199254740992)%Q in
  [1; 2; 3]%Q <> []
  /\ (0 < 360 < 2 ^ 53)%Z /\ (0 <= overlap)%Q /\ (overlap < 1)%Q
  /\ Spectrogram.noverlap 360 overlap = 125%Z
  /\ Spectrogram.tab [1; 2; 3]%Q 360 overlap
     = Spectrogram.Call [1; 2; 3]%Q 360 (Spectrogram.noverlap 360 overlap)
  /\ (Spectrogram.noverlap 360 overlap <= 360 - 1)%Z.
Proof.
  intros overlap.
  assert ([1; 2; 3]%Q <> []) as Hne by discriminate.
  assert (0 < 360 < 2 ^ 53)%Z as Hw by (split; reflexivity).
  assert (0 <= overlap)%Q as H0 by (vm_compute; discriminate).
  assert (overlap < 1)%Q as H1 by reflexivity.
  repeat (split; [assumption |]).
  split; [vm_compute; reflexivity |].
  pose proof (spectrogram_tab_call [1; 2; 3]%Q 360 overlap Hne Hw H0 H1) as H.
  cbv zeta in H. destruct H as [Hcall [_ [_ [_ [Hhop _]]]]].
  split; [exact Hcall |]. apply Hhop. reflexivity.
Defined.


Lemma satv_constant_series_witness :
  (2 <= 4)%nat /\ (0 < 1 # 20)%Q /\ (1 # 20 < 1)%Q
  /\ satv_real [7; 7; 7; 7]%R (1 # 20) = [0; 0; 0; 0]%R.
Proof.
  assert (2 <= 4)%nat as HN by lia.
  assert (0 < 1 # 20)%Q as H0 by reflexivity.
  assert (1 # 20 < 1)%Q as H1 by reflexivity.
  repeat (split; [assumption |]).
  exact (satv_constant_series 7%R 4 (1 # 20) HN H0 H1).
Defined.

Lemma tabs_keep_input_witness :
  let h : gmap nat (list R) := {[ 0 := [1; 2; 3]%R ]} in
  let detector := fun (_ : Z) (_ : Q) (zs : list R) => map (fun _ => 1%Z) zs in
  h !! 0 = Some [1; 2; 3]%R
  /\ (spc_tab 0%R Dct.dct Dct.idct (fun _ _ => []) 0 (1 # 20) 3 h).2 !! 0
     = Some [1; 2; 3]%R
  /\ (lof_tab (fun zs => zs) detector 0 35 (1 # 100) h).2 !! 0 = Some [1; 2; 3]%R.
Proof.
  intros h detector.
  assert (h !! 0 = Some [1; 2; 3]%R) as Hs by reflexivity.
  split; [exact Hs |].
  pose proof (tabs_keep_input 0%R Dct.dct Dct.idct (fun _ _ => []) (fun zs => zs) detector
                h 0 [1; 2; 3]%R (1 # 20) 3 35 (1 # 100) Hs) as H.
  cbv zeta in H. destruct H as [[Hspc _] [Hlof _]].
  split; [exact Hspc | exact Hlof].
Defined.

(** * Further properties of the pages *)

(** ** The SPC band flags at most half of the samples *)

Section SpcExtra.
Import Spc.
Local Open Scope Q_scope.

Lemma filter_length_split {A : Type} (f : A -> bool) (l : list A) :
  (length (List.filter f l) + length (List.filter (fun x => negb (f x)) l) = length l)%nat.
Proof.
  induction l as [| x l IH]; simpl; [reflexivity |].
  destruct (f x); simpl; lia.
Qed.

Lemma mad_ge_median (satv : list Q) : median (deviations satv) <= mad satv.
Proof.
  unfold mad, or_else. destruct (Qeq_bool (median (deviations satv)) 0) eqn:E.
  - apply Qeq_bool_iff in E. rewrite E. vm_compute. discriminate.
  - apply Qle_refl.
Qed.

Lemma flagged_count_filter (satv : list Q) (k : Q) :
  flagged_count satv k
  = length (List.filter
      (fun x => Qlt_bool x (lo satv k) || Qlt_bool (hi satv k) x) satv).
Proof.
  unfold flagged_count, Py.count_true, out.
  rewrite List.filter_map_swap, length_map. reflexivity.
Qed.

(** A sample no further from the center than the median deviation is
    inside the band as soon as [k * 1.4826 >= 1]. *)
Lemma near_center_unflagged (satv : list Q) (k x : Q) :
  1 <= 1.4826 * k ->
  Qabs (x - med satv) <= median (deviations satv) ->
  Qlt_bool x (lo satv k) || Qlt_bool (hi satv k) x = false.
Proof.
  intros Hk Hx.
  pose proof (mad_ge_median satv) as Hm. pose proof (mad_pos satv) as Hp.
  assert (mad satv <= k * sigma satv) as Hs.
  { assert (1 * mad satv <= 1.4826 * k * mad satv) as H.
    { apply Qmult_le_compat_r; [exact Hk | apply Qlt_le_weak, Hp]. }
    unfold sigma. Lqa.lra. }
  assert (Qabs (x - med satv) <= k * sigma satv) as Hb.
  { eapply Qle_trans; [exact Hx |]. eapply Qle_trans; [exact Hm | exact Hs]. }
  apply Qabs_Qle_condition in Hb. destruct Hb as [Hb1 Hb2].
  apply orb_false_iff. split.
  - destruct (Qlt_bool x (lo satv k)) eqn:E; [| reflexivity].
    apply Qlt_bool_iff in E. unfold lo in E. Lqa.lra.
  - destruct (Qlt_bool (hi satv k) x) eqn:E; [| reflexivity].
    apply Qlt_bool_iff in E. unfold hi in E. Lqa.lra.
Qed.

(** With [k * 1.4826 >= 1], as for every value of the slider, at most half
    of the samples are flagged: the half that lies within the median
    absolute deviation of the center is inside the band. *)
Theorem spc_flags_at_most_half (satv : list Q) (k_sigma : Q) :
  1 <= 1.4826 * k_sigma ->
  (2 * flagged_count satv k_sigma <= length satv)%nat.
Proof.
  intros Hk.
  pose proof (median_is_median (deviations satv)) as [Hle _].
  unfold count_le, deviations in Hle. rewrite List.filter_map_swap, !length_map in Hle.
  fold (deviations satv) in Hle.
  rewrite flagged_count_filter.
  set (flag := fun x => Qlt_bool x (lo satv k_sigma) || Qlt_bool (hi satv k_sigma) x).
  pose proof (filter_length_split flag satv) as Hsplit.
  assert (length (List.filter
            (fun x => Qle_bool (Qabs (x - med satv)) (median (deviations satv))) satv)
          <= length (List.filter (fun x => negb (flag x)) satv))%nat as Hsub.
  { apply filter_length_mono. intros x _ Hx. apply Qle_bool_iff in Hx.
    unfold flag. rewrite (near_center_unflagged satv k_sigma x Hk Hx). reflexivity. }
  lia.
Qed.

End SpcExtra.

(** ** The cosine transform as an orthonormal pair *)

Section DctMore.
Import Dct DctAlg.
Local Open Scope R_scope.

Lemma weight_first (N : nat) : (0 < N)%nat -> weight N 0 = 1 / sqrt (INR N).
Proof.
  intros HN. assert (0 < INR N) as H by (apply lt_0_INR; exact HN).
  assert (0 < sqrt (INR N)) as Hr by (apply sqrt_lt_R0; exact H).
  pose proof (sqrt_sqrt (INR N) (Rlt_le _ _ H)) as Hsq.
  pose proof (scale_first N HN) as Hs. unfold weight.
  remember (sqrt (INR N)) as r eqn:Er.
  apply Rmult_eq_reg_r with (/ r); [| apply Rinv_neq_0_compat; lra].
  change (scale N 0 * 2 * / r) with (scale N 0 * 2 / r). rewrite Hs, <- Hsq. field. lra.
Qed.

Lemma weight_rest (N k : nat) : (0 < N)%nat -> weight N (S k) = sqrt (2 / INR N).
Proof.
  intros HN. assert (0 < INR N) as H by (apply lt_0_INR; exact HN).
  assert (0 < 2 / INR N) as H2 by (apply Rdiv_lt_0_compat; lra).
  assert (0 < sqrt (2 / INR N)) as Hr by (apply sqrt_lt_R0; exact H2).
  pose proof (sqrt_sqrt (2 / INR N) (Rlt_le _ _ H2)) as Hsq.
  pose proof (scale_rest N k HN) as Hs. unfold weight.
  remember (sqrt (2 / INR N)) as r eqn:Er.
  apply Rmult_eq_reg_l with r; [| lra]. rewrite Hs, Hsq. reflexivity.
Qed.

Lemma weight_first_sq (N : nat) : (0 < N)%nat -> weight N 0 * weight N 0 = 1 / INR N.
Proof.
  intros HN. assert (0 < INR N) as H by (apply lt_0_INR; exact HN).
  assert (0 < sqrt (INR N)) as Hr by (apply sqrt_lt_R0; exact H).
  pose proof (sqrt_sqrt (INR N) (Rlt_le _ _ H)) as Hsq.
  rewrite weight_first by exact HN. remember (sqrt (INR N)) as r eqn:Er.
  rewrite <- Hsq. field. lra.
Qed.

Lemma weight_rest_sq (N j k : nat) :
  (0 < N)%nat -> weight N (S j) * weight N (S k) = 2 / INR N.
Proof.
  intros HN. assert (0 < INR N) as H by (apply lt_0_INR; exact HN).
  rewrite !weight_rest by exact HN. apply sqrt_sqrt.
  apply Rlt_le, Rdiv_lt_0_compat; lra.
Qed.

Lemma rsum_snoc_first (f : nat -> R) (len : nat) :
  rsum f 0 (S len) = f 0%nat + rsum f 1 len.
Proof. reflexivity. Qed.

(** Both transforms as weighted cosine sums over indices. *)
Lemma dct_coeff_weight (x : list R) (k : nat) :
  dct_coeff x k
  = weight (length x) k
    * rsum (fun n => nth n x 0 * cos ((2 * INR n + 1) * angle (length x) k)) 0 (length x).
Proof. rewrite dct_coeff_rsum. reflexivity. Qed.

Lemma idct_sample_weight (y : list R) (n : nat) :
  idct_sample y n
  = rsum (fun j => weight (length y) j * nth j y 0
                   * cos ((2 * INR n + 1) * angle (length y) j)) 0 (length y).
Proof.
  destruct y as [| y0 ys]; [reflexivity |].
  unfold idct_sample. simpl length. set (m := length ys).
  assert (0 < S m)%nat as HN by lia.
  rewrite rsum_snoc_first, weight_first by exact HN.
  f_equal.
  - unfold angle. simpl nth. replace (INR 0) with 0 by reflexivity. unfold Rdiv.
    rewrite Rmult_0_r, Rmult_0_l, Rmult_0_r, cos_0. ring.
  - rewrite isum_rsum, <- rsum_scal. apply rsum_ext. intros j Hj.
    destruct j as [| j]; [lia |].
    rewrite weight_rest by exact HN. simpl nth. rewrite Nat.sub_0_r. ring.
Qed.


Lemma rsum_cos_odd (a : R) (len : nat) :
  forall start,
  2 * sin a * rsum (fun n => cos ((2 * INR n + 1) * a)) start len
  = sin (2 * INR (start + len) * a) - sin (2 * INR start * a).
Proof.
  induction len as [| len IH]; intros start; simpl rsum.
  - rewrite Nat.add_0_r. ring.
  - rewrite Rmult_plus_distr_l, IH, sin_cos_product.
    replace ((2 * INR start + 1) * a + a) with (2 * INR (S start) * a)
      by (rewrite S_INR; ring).
    replace ((2 * INR start + 1) * a - a) with (2 * INR start * a) by ring.
    replace (start + S len)%nat with (S start + len)%nat by lia.
    ring.
Qed.

(** [sum_{n<N} cos((2n+1) j pi / (2N)) = 0] for [0 < j < 2N]. *)
Lemma cos_odd_sum_zero (N j : nat) :
  (0 < j < 2 * N)%nat ->
  rsum (fun n => cos ((2 * INR n + 1) * (INR j * PI / (2 * INR N)))) 0 N = 0.
Proof.
  intros Hj.
  assert (0 < INR N) as HN by (apply lt_0_INR; lia).
  assert (0 < INR j) as Hj0 by (apply lt_0_INR; lia).
  assert (INR j < 2 * INR N) as Hj1.
  { replace (2 * INR N) with (INR (2 * N)) by (rewrite mult_INR; simpl; ring).
    apply lt_INR. lia. }
  pose proof PI_RGT_0 as Hpi.
  set (a := INR j * PI / (2 * INR N)).
  assert (0 < a < PI) as [Ha0 Ha1].
  { unfold a. split.
    - apply Rdiv_lt_0_compat; [| lra]. apply Rmult_lt_0_compat; lra.
    - apply Rmult_lt_reg_r with (2 * INR N); [lra |].
      replace (INR j * PI / (2 * INR N) * (2 * INR N)) with (INR j * PI) by (field; lra).
      rewrite (Rmult_comm PI). apply Rmult_lt_compat_r; lra. }
  assert (0 < sin a) as Hsin by (apply sin_gt_0; assumption).
  pose proof (rsum_cos_odd a N 0) as H.
  replace (2 * INR (0 + N) * a) with (INR j * PI) in H by (unfold a; simpl; field; lra).
  replace (2 * INR 0 * a) with 0 in H by (simpl; ring).
  rewrite sin_nat_PI, sin_0 in H.
  apply Rmult_eq_reg_l with (2 * sin a); [| lra]. rewrite H. ring.
Qed.

Lemma cokernel_sym (N j k : nat) : cokernel N j k = cokernel N k j.
Proof.
  unfold cokernel. rewrite (Rmult_comm (weight N j)). f_equal.
  apply rsum_ext. intros n _. ring.
Qed.

Lemma cokernel_sums (N j k : nat) :
  (j <= k)%nat -> (0 < N)%nat ->
  rsum (fun n => cos ((2 * INR n + 1) * angle N j) * cos ((2 * INR n + 1) * angle N k)) 0 N
  = (rsum (fun n => cos ((2 * INR n + 1) * (INR (k - j) * PI / (2 * INR N)))) 0 N
     + rsum (fun n => cos ((2 * INR n + 1) * (INR (k + j) * PI / (2 * INR N)))) 0 N) / 2.
Proof.
  intros Hjk HN0.
  assert (INR N <> 0) as HN by (apply not_0_INR; lia).
  transitivity
    (rsum (fun n => / 2 * (cos ((2 * INR n + 1) * (INR (k - j) * PI / (2 * INR N)))
                           + cos ((2 * INR n + 1) * (INR (k + j) * PI / (2 * INR N)))))
       0 N).
  2:{ rewrite rsum_scal, rsum_plus. field. }
  apply rsum_ext. intros n _.
  rewrite Rmult_comm, cos_cos_product.
  replace ((2 * INR n + 1) * angle N k - (2 * INR n + 1) * angle N j)
    with ((2 * INR n + 1) * (INR (k - j) * PI / (2 * INR N)))
    by (rewrite minus_INR by lia; unfold angle; field; exact HN).
  replace ((2 * INR n + 1) * angle N k + (2 * INR n + 1) * angle N j)
    with ((2 * INR n + 1) * (INR (k + j) * PI / (2 * INR N)))
    by (rewrite plus_INR; unfold angle; field; exact HN).
  field.
Qed.

Lemma rsum_cos_zero_angle (N d : nat) :
  d = 0%nat ->
  rsum (fun n => cos ((2 * INR n + 1) * (INR d * PI / (2 * INR N)))) 0 N = INR N.
Proof.
  intros ->. rewrite (rsum_ext _ (fun _ => 1)), rsum_const; [ring |].
  intros n _. simpl INR. unfold Rdiv. rewrite !Rmult_0_l, Rmult_0_r. apply cos_0.
Qed.

Lemma cokernel_delta (N j k : nat) :
  (j < N)%nat -> (k < N)%nat -> cokernel N j k = if Nat.eqb j k then 1 else 0.
Proof.
  assert (forall j k, (j <= k < N)%nat ->
            cokernel N j k = if Nat.eqb j k then 1 else 0) as Hle.
  { clear j k. intros j k Hjk.
    assert (0 < N)%nat as HN by lia.
    assert (INR N <> 0) as HN0 by (apply not_0_INR; lia).
    unfold cokernel. rewrite cokernel_sums by lia.
    destruct (Nat.eqb j k) eqn:E.
    - apply Nat.eqb_eq in E. subst k.
      rewrite (rsum_cos_zero_angle N (j - j)) by lia.
      destruct j as [| j].
      + rewrite (rsum_cos_zero_angle N (0 + 0)) by lia.
        rewrite weight_first_sq by exact HN. field. exact HN0.
      + rewrite cos_odd_sum_zero by lia.
        rewrite weight_rest_sq by exact HN. field. exact HN0.
    - apply Nat.eqb_neq in E.
      rewrite !cos_odd_sum_zero by lia. field. }
  intros Hj Hk. destruct (Nat.le_ge_cases j k) as [H | H].
  - apply Hle. lia.
  - rewrite cokernel_sym, Nat.eqb_sym. apply Hle. lia.
Qed.

Lemma idct_nth (y : list R) (n : nat) :
  (n < length y)%nat -> nth n (idct y) 0 = idct_sample y n.
Proof.
  intros Hn. unfold idct.
  rewrite (nth_indep _ 0 (idct_sample y 0)) by (rewrite length_map, length_seq; exact Hn).
  rewrite map_nth, seq_nth by exact Hn. reflexivity.
Qed.

Lemma dct_nth (x : list R) (k : nat) :
  (k < length x)%nat -> nth k (dct x) 0 = dct_coeff x k.
Proof.
  intros Hk. unfold dct.
  rewrite (nth_indep _ 0 (dct_coeff x 0)) by (rewrite length_map, length_seq; exact Hk).
  rewrite map_nth, seq_nth by exact Hk. reflexivity.
Qed.

(** The transform of the inverse transform, coefficient by coefficient. *)
Lemma dct_idct_coeff (y : list R) (k : nat) :
  (k < length y)%nat -> dct_coeff (idct y) k = nth k y 0.
Proof.
  intros Hk. set (N := length y).
  rewrite dct_coeff_weight, idct_length. fold N.
  rewrite (rsum_ext _ (fun n => rsum (fun j => nth j y 0
              * (weight N j * (cos ((2 * INR n + 1) * angle N j)
                               * cos ((2 * INR n + 1) * angle N k)))) 0 N)).
  2:{ intros n Hn. rewrite idct_nth by (fold N; lia). rewrite idct_sample_weight. fold N.
      rewrite Rmult_comm, <- rsum_scal. apply rsum_ext. intros j _. ring. }
  rewrite rsum_swap, <- rsum_scal.
  rewrite (rsum_ext _ (fun j => nth j y 0 * (if Nat.eqb j k then 1 else 0))).
  - apply (rsum_pick (fun j => nth j y 0)). fold N in Hk. lia.
  - intros j Hj. rewrite <- (cokernel_delta N j k) by (fold N in Hk; lia).
    unfold cokernel. rewrite !rsum_scal. ring.
Qed.

Lemma dct_idct (y : list R) : dct (idct y) = y.
Proof.
  apply nth_ext with (d := 0) (d' := 0).
  - rewrite dct_length, idct_length. reflexivity.
  - intros k Hk. rewrite dct_length, idct_length in Hk.
    rewrite dct_nth by (rewrite idct_length; exact Hk).
    apply dct_idct_coeff, Hk.
Qed.


(** *** Sums and energies *)

Lemma total_map_seq (f : nat -> R) (len : nat) :
  forall start, total (map f (seq start len)) = rsum f start len.
Proof.
  induction len as [| len IH]; intros start; simpl; [reflexivity |].
  unfold total in *. simpl. rewrite IH. reflexivity.
Qed.

Lemma total_app (a b : list R) : total (a ++ b) = total a + total b.
Proof.
  unfold total. induction a as [| x a IH]; simpl; [ring |]. rewrite IH. ring.
Qed.

Lemma rsum_shift (f : nat -> R) (len : nat) :
  forall start, rsum (fun n => f (S n)) start len = rsum f (S start) len.
Proof.
  induction len as [| len IH]; intros start; simpl; [reflexivity |].
  rewrite IH. reflexivity.
Qed.

Lemma total_rsum (l : list R) : total l = rsum (fun n => nth n l 0) 0 (length l).
Proof.
  unfold total. induction l as [| x l IH]; simpl; [reflexivity |].
  rewrite IH. f_equal. apply (rsum_shift (fun n => nth n (x :: l) 0)).
Qed.

Lemma energy_rsum (l : list R) :
  energy l = rsum (fun n => nth n l 0 * nth n l 0) 0 (length l).
Proof.
  unfold energy, total. induction l as [| x l IH]; simpl; [reflexivity |].
  rewrite IH. f_equal.
  apply (rsum_shift (fun n => nth n (x :: l) 0 * nth n (x :: l) 0)).
Qed.

Lemma energy_app (a b : list R) : energy (a ++ b) = energy a + energy b.
Proof. unfold energy. rewrite map_app. apply total_app. Qed.

Lemma energy_nonneg (l : list R) : 0 <= energy l.
Proof.
  unfold energy, total. induction l as [| x l IH]; simpl; [lra |].
  pose proof (Rle_0_sqr x) as H. unfold Rsqr in H. lra.
Qed.

Lemma energy_zeros (c : nat) : energy (repeat 0 c) = 0.
Proof.
  unfold energy, total. induction c as [| c IH]; simpl; [reflexivity |].
  rewrite IH. ring.
Qed.

(** The sum of the inverse transform is [sqrt N] times the first
    coefficient. *)
Lemma total_idct (y : list R) : total (idct y) = sqrt (INR (length y)) * nth 0 y 0.
Proof.
  destruct y as [| y0 ys].
  { unfold idct, total. simpl. ring. }
  set (y := y0 :: ys). set (N := length y).
  assert (0 < N)%nat as HN by (unfold N; simpl; lia).
  assert (0 < INR N) as HN0 by (apply lt_0_INR; exact HN).
  unfold idct. fold N. rewrite total_map_seq.
  rewrite (rsum_ext _ (fun n => rsum (fun j => weight N j * nth j y 0
                                 * cos ((2 * INR n + 1) * angle N j)) 0 N))
    by (intros n _; rewrite idct_sample_weight; reflexivity).
  rewrite rsum_swap.
  replace N with (S (N - 1)) at 1 by lia. rewrite rsum_snoc_first.
  rewrite (rsum_ext (fun j => rsum _ 0 N) (fun _ => 0) (N - 1) 1), rsum_zero.
  2:{ intros j Hj. rewrite rsum_scal.
      rewrite (rsum_ext _ (fun n => cos ((2 * INR n + 1) * (INR j * PI / (2 * INR N))))).
      - rewrite cos_odd_sum_zero by lia. ring.
      - intros n _. f_equal. unfold angle. field. lra. }
  rewrite rsum_scal.
  rewrite (rsum_ext _ (fun _ => 1)), rsum_const.
  2:{ intros n _. unfold angle. simpl INR. unfold Rdiv.
      rewrite Rmult_0_r, Rmult_0_l, Rmult_0_r. apply cos_0. }
  rewrite weight_first by exact HN.
  pose proof (sqrt_sqrt (INR N) (Rlt_le _ _ HN0)) as Hsq.
  assert (0 < sqrt (INR N)) as Hr by (apply sqrt_lt_R0; exact HN0).
  remember (sqrt (INR N)) as r eqn:Er. rewrite <- Hsq. field. lra.
Qed.

(** The two transforms are adjoint. *)
Lemma dct_idct_adjoint (x y : list R) :
  length x = length y ->
  rsum (fun n => nth n x 0 * nth n (idct y) 0) 0 (length x)
  = rsum (fun k => nth k (dct x) 0 * nth k y 0) 0 (length x).
Proof.
  intros Hlen. set (N := length x).
  rewrite (rsum_ext _ (fun n => rsum (fun j => nth j y 0
              * (weight N j * (nth n x 0 * cos ((2 * INR n + 1) * angle N j)))) 0 N)).
  2:{ intros n Hn. rewrite idct_nth by (rewrite <- Hlen; fold N; lia).
      rewrite idct_sample_weight, <- Hlen. fold N.
      rewrite <- rsum_scal. apply rsum_ext. intros j _. ring. }
  rewrite rsum_swap. apply rsum_ext. intros k Hk.
  rewrite dct_nth by (fold N; lia). rewrite dct_coeff_weight. fold N.
  rewrite !rsum_scal. ring.
Qed.

(** Parseval: both transforms keep the energy. *)
Lemma energy_idct (y : list R) : energy (idct y) = energy y.
Proof.
  rewrite !energy_rsum, idct_length.
  pose proof (dct_idct_adjoint (idct y) y (idct_length y)) as H.
  rewrite idct_length, dct_idct in H. exact H.
Qed.

Lemma energy_dct (x : list R) : energy (dct x) = energy x.
Proof. rewrite <- (idct_dct x) at 2. symmetry. apply energy_idct. Qed.

End DctMore.

Section SatvMore.
Import Dct DctAlg.
Local Open Scope R_scope.

Lemma slice_fill_len {A : Type} (stop : Z) (v : A) (x : list A) :
  Py.len (Py.slice_fill stop v x) = Py.len x.
Proof. unfold Py.len. rewrite slice_fill_length. reflexivity. Qed.

Lemma slice_fill_idem {A : Type} (stop : Z) (v : A) (x : list A) :
  Py.slice_fill stop v (Py.slice_fill stop v x) = Py.slice_fill stop v x.
Proof.
  unfold Py.slice_fill at 1. rewrite slice_fill_len. unfold Py.slice_fill.
  set (c := Py.slice_stop stop (Py.len x)).
  rewrite skipn_app, repeat_length, Nat.sub_diag.
  rewrite (skipn_all2 (repeat v c)) by (rewrite repeat_length; lia).
  reflexivity.
Qed.

(** The first coefficient is always among the zeroed ones. *)
Lemma satv_coeffs_first (s : list R) (dct_keep_frac : Q) :
  nth 0 (satv_coeffs_real s dct_keep_frac) 0 = 0.
Proof.
  unfold satv_coeffs_real, satv_coeffs, Py.slice_fill.
  set (x := dct s). set (stop := Z.max 1 (cutoff (Py.len x) dct_keep_frac)).
  destruct x as [| x0 x'] eqn:Ex.
  - unfold Py.slice_stop. destruct (stop <? 0)%Z; simpl;
      rewrite ?Z.min_r by lia; reflexivity.
  - assert (exists c, Py.slice_stop stop (Py.len (x0 :: x')) = S c) as [c Hc].
    { unfold Py.slice_stop, Py.len. simpl length.
      destruct (stop <? 0)%Z eqn:E; [unfold stop in E; lia |].
      exists (Z.to_nat (Z.min stop (Z.of_nat (S (length x')))) - 1)%nat.
      unfold stop. lia. }
    rewrite Hc. reflexivity.
Qed.

Lemma satv_coeffs_length (s : list R) (dct_keep_frac : Q) :
  length (satv_coeffs_real s dct_keep_frac) = length s.
Proof.
  unfold satv_coeffs_real, satv_coeffs. rewrite slice_fill_length. apply dct_length.
Qed.

(** The residual sums to zero, whatever the series and the fraction. *)
Theorem satv_sums_to_zero (s : list R) (dct_keep_frac : Q) :
  total (satv_real s dct_keep_frac) = 0.
Proof.
  change (satv_real s dct_keep_frac) with (idct (satv_coeffs_real s dct_keep_frac)).
  rewrite total_idct, satv_coeffs_first. ring.
Qed.

(** Filtering a residual again changes nothing. *)
Theorem satv_idempotent (s : list R) (dct_keep_frac : Q) :
  satv_real (satv_real s dct_keep_frac) dct_keep_frac = satv_real s dct_keep_frac.
Proof.
  unfold satv_real, satv. f_equal.
  unfold satv_coeffs at 1. rewrite dct_idct.
  unfold satv_coeffs. rewrite slice_fill_len. apply slice_fill_idem.
Qed.

Lemma energy_slice_fill (stop : Z) (y : list R) :
  energy (Py.slice_fill stop 0 y) <= energy y.
Proof.
  unfold Py.slice_fill. set (c := Py.slice_stop stop (Py.len y)).
  rewrite <- (firstn_skipn c y) at 2.
  rewrite !energy_app, energy_zeros.
  pose proof (energy_nonneg (firstn c y)). lra.
Qed.

(** The filter never adds energy. *)
Theorem satv_energy_le (s : list R) (dct_keep_frac : Q) :
  energy (satv_real s dct_keep_frac) <= energy s.
Proof.
  unfold satv_real, satv, satv_coeffs.
  rewrite energy_idct, <- (energy_dct s). apply energy_slice_fill.
Qed.

End SatvMore.

Section SatvMean.
Import Dct DctAlg.
Local Open Scope R_scope.

Lemma int_below_two (q : Q) : (q < 2)%Q -> (Py.int q <= 1)%Z.
Proof.
  intros Hq. destruct q as [a b]. unfold Py.int. simpl.
  unfold Qlt in Hq. simpl in Hq.
  destruct (Z.le_gt_cases 0 a) as [Ha | Ha].
  - assert (Z.quot a (Z.pos b) < 2)%Z; [| lia].
    apply Z.quot_lt_upper_bound; lia.
  - assert (0 <= Z.quot (- a) (Z.pos b))%Z as H by (apply Z.quot_pos; lia).
    rewrite Z.quot_opp_l in H by lia. lia.
Qed.

Lemma idct_sample_drop_first (y0 : R) (ys : list R) (n : nat) :
  idct_sample (0 :: ys) n = idct_sample (y0 :: ys) n - y0 / sqrt (INR (S (length ys))).
Proof. unfold idct_sample. simpl length. unfold Rdiv. ring. Qed.

Lemma dct_coeff_first (s : list R) :
  s <> [] -> dct_coeff s 0 / sqrt (INR (length s)) = total s / INR (length s).
Proof.
  intros Hs. assert (0 < length s)%nat as HN by (destruct s; [contradiction | simpl; lia]).
  assert (0 < INR (length s)) as HN0 by (apply lt_0_INR; exact HN).
  rewrite dct_coeff_weight, weight_first by exact HN.
  rewrite (rsum_ext _ (fun n => nth n s 0)).
  2:{ intros n _. unfold angle. simpl INR. unfold Rdiv.
      rewrite Rmult_0_r, Rmult_0_l, Rmult_0_r, cos_0. ring. }
  rewrite <- total_rsum.
  pose proof (sqrt_sqrt (INR (length s)) (Rlt_le _ _ HN0)) as Hsq.
  assert (0 < sqrt (INR (length s))) as Hr by (apply sqrt_lt_R0; exact HN0).
  remember (sqrt (INR (length s))) as r eqn:Er. rewrite <- Hsq. field. lra.
Qed.

(** When only the first coefficient is zeroed the residual is the series
    minus its mean. *)
Theorem satv_removes_mean (s : list R) (dct_keep_frac : Q) :
  s <> [] -> (inject_Z (Py.len s) * dct_keep_frac < 2)%Q ->
  satv_real s dct_keep_frac = map (fun v => v - total s / INR (length s)) s.
Proof.
  intros Hs Hf.
  assert (0 < length s)%nat as HN by (destruct s; [contradiction | simpl; lia]).
  assert (Z.max 1 (cutoff (Py.len (dct s)) dct_keep_frac) = 1%Z) as Hstop.
  { unfold Py.len. rewrite dct_length. fold (Py.len s).
    pose proof (int_below_two _ Hf). unfold cutoff. lia. }
  unfold satv_real, satv, satv_coeffs. rewrite Hstop.
  rewrite (dct_cons s Hs).
  set (y0 := dct_coeff s 0). set (ys := map (dct_coeff s) (seq 1 (length s - 1))).
  assert (length ys = (length s - 1)%nat) as Hys
    by (unfold ys; rewrite length_map, length_seq; reflexivity).
  assert (Py.slice_fill 1 0 (y0 :: ys) = 0 :: ys) as Hfill.
  { unfold Py.slice_fill, Py.slice_stop, Py.len. simpl length.
    change (1 <? 0)%Z with false. cbv iota. rewrite Z.min_l by lia. reflexivity. }
  rewrite Hfill.
  apply nth_ext with (d := 0) (d' := 0).
  - rewrite idct_length, length_map. simpl. lia.
  - intros n Hn. rewrite idct_length in Hn.
    assert (n < length s)%nat as Hn' by (simpl in Hn; lia).
    rewrite idct_nth by exact Hn.
    rewrite (idct_sample_drop_first y0).
    replace (idct_sample (y0 :: ys) n) with (idct_sample (dct s) n)
      by (rewrite (dct_cons s Hs); reflexivity).
    rewrite idct_dct_sample by exact Hn'.
    replace (S (length ys)) with (length s) by lia.
    unfold y0. rewrite dct_coeff_first by exact Hs.
    rewrite (nth_indep (map _ s) 0 ((fun v => v - total s / INR (length s)) 0))
      by (rewrite length_map; exact Hn').
    rewrite (map_nth (fun v => v - total s / INR (length s))). reflexivity.
Qed.

End SatvMean.

(** ** Selectors and tables *)

Section DictFacts.
Context {V : Type}.

Lemma dict_get_In (d : list (string * V)) (k : string) (v : V) :
  Dict.get d k = Some v -> In (k, v) d.
Proof.
  induction d as [| [k' v'] d IH]; simpl; [discriminate |].
  destruct (String.eqb k' k) eqn:E.
  - apply String.eqb_eq in E. intros H. injection H as ->. left. congruence.
  - intros H. right. apply IH, H.
Qed.

End DictFacts.

Section SortedDistinctFacts.

Lemma sorted_distinct_In (l : list string) (a : string) :
  In a (sorted_distinct l) <-> In a l.
Proof.
  unfold sorted_distinct. rewrite <- (nodup_In String.string_dec l a). split.
  - apply Permutation_in. symmetry. apply StringSort.Permuted_sort.
  - apply Permutation_in. apply StringSort.Permuted_sort.
Qed.

Lemma sorted_distinct_NoDup (l : list string) : List.NoDup (sorted_distinct l).
Proof.
  unfold sorted_distinct.
  apply (Permutation_NoDup (StringSort.Permuted_sort _)), NoDup_nodup.
Qed.

Lemma sorted_distinct_sorted (l : list string) :
  Sorted (fun a b => String.leb a b = true) (sorted_distinct l).
Proof. unfold sorted_distinct. apply StringSort.Sorted_sort. Qed.

Lemma sorted_distinct_nil (l : list string) : sorted_distinct l = [] <-> l = [].
Proof.
  split.
  - intros H. destruct l as [| a l]; [reflexivity |].
    assert (In a (sorted_distinct (a :: l))) as Hin by (apply sorted_distinct_In; left; reflexivity).
    rewrite H in Hin. destruct Hin.
  - intros ->. reflexivity.
Qed.

Lemma list_index_Some (x : string) (l : list string) (i : nat) :
  list_index x l = Some i -> nth_error l i = Some x.
Proof.
  revert i. induction l as [| y l IH]; intros i; simpl; [discriminate |].
  destruct (String.eqb y x) eqn:E.
  - apply String.eqb_eq in E. intros H. injection H as <-. simpl. congruence.
  - destruct (list_index x l) as [j |]; simpl; [| discriminate].
    intros H. injection H as <-. simpl. apply IH. reflexivity.
Qed.

Lemma list_index_None (x : string) (l : list string) :
  list_index x l = None <-> ~ In x l.
Proof.
  induction l as [| y l IH]; simpl.
  - split; [intros _ [] | reflexivity].
  - destruct (String.eqb y x) eqn:E.
    + apply String.eqb_eq in E. split; [discriminate | intros H; exfalso; apply H; left; exact E].
    + apply String.eqb_neq in E. destruct (list_index x l) as [i |] eqn:Ei; simpl.
      * split; [discriminate |]. intros H. exfalso. apply H. right.
        apply (nth_error_In l i). apply list_index_Some. exact Ei.
      * split; [| reflexivity]. intros _ [H | H]; [contradiction |].
        apply (proj1 IH eq_refl), H.
Qed.

End SortedDistinctFacts.

Section SelectionFacts.

Lemma price_area_city_known (area city : string) :
  Dict.get Outlier.PRICE_AREAS area = Some city ->
  is_Some (Dict.get Outlier.CITY_COORDS city).
Proof.
  intros H. apply dict_get_In in H. unfold Outlier.PRICE_AREAS in H. simpl in H.
  repeat (destruct H as [H | H]; [injection H as _ <-; eexists; reflexivity |]).
  destruct H.
Qed.

(** [get_selection] never raises: whatever the session state holds, it
    returns the stored area (or NO1), a city and the coordinates of that
    city; an area that is not in the table gets Oslo. *)
Theorem get_selection_total (selected_area : option string) :
  exists city lat lon,
    Outlier.get_selection selected_area
    = Some (default "NO1"%string selected_area, city, lat, lon)
    /\ Dict.get Outlier.CITY_COORDS city = Some (lat, lon)
    /\ (Dict.get Outlier.PRICE_AREAS (default "NO1"%string selected_area) = None ->
        city = "Oslo"%string /\ lat = 59.9139%Q /\ lon = 10.7522%Q)
    /\ (forall c, Dict.get Outlier.PRICE_AREAS (default "NO1"%string selected_area) = Some c ->
        city = c).
Proof.
  unfold Outlier.get_selection. set (area := default "NO1"%string selected_area).
  destruct (Dict.get Outlier.PRICE_AREAS area) as [c |] eqn:Ec.
  - destruct (price_area_city_known area c Ec) as [[lat lon] Hc].
    exists c, lat, lon. cbv zeta.
    change (default "Oslo"%string (Some c)) with c. rewrite Hc.
    split; [reflexivity |]. split; [reflexivity |].
    split; [discriminate | congruence].
  - exists "Oslo"%string, 59.9139%Q, 10.7522%Q.
    split; [reflexivity |]. split; [reflexivity |].
    split; [intros _; repeat split | discriminate].
Qed.

(** Whatever area the radio of the production page returns, lines 62-68
    store a city and coordinates without a [KeyError], and
    [get_selection] on the outlier page, reading the stored area, returns
    that same city and those same coordinates. *)
Theorem selection_agrees_across_pages (area : string) :
  exists sel,
    Production.select area = Some sel
    /\ Production.selected_area sel = area
    /\ Outlier.get_selection (Some (Production.selected_area sel))
       = Some (area, Production.selected_city sel,
               fst (Production.selected_coords sel), snd (Production.selected_coords sel)).
Proof.
  unfold Production.select.
  change Production.PRICE_AREAS with Outlier.PRICE_AREAS.
  change Production.CITY_COORDS with Outlier.CITY_COORDS.
  cbv zeta.
  assert (forall city coords,
            Dict.get Outlier.PRICE_AREAS area = city ->
            Dict.get Outlier.CITY_COORDS (default "Oslo"%string city) = Some coords ->
            Outlier.get_selection (Some area)
            = Some (area, default "Oslo"%string city, fst coords, snd coords)) as Hget.
  { intros city [la lo] Hcity Hcoords. unfold Outlier.get_selection. cbv zeta.
    change (default "NO1"%string (Some area)) with area.
    rewrite Hcity, Hcoords. reflexivity. }
  destruct (Dict.get Outlier.PRICE_AREAS area) as [c |] eqn:Ec.
  - destruct (price_area_city_known area c Ec) as [coords Hc].
    change (default "Oslo"%string (Some c)) with c. rewrite Hc.
    eexists. split; [reflexivity |]. split; [reflexivity |].
    apply (Hget (Some c) coords eq_refl Hc).
  - eexists. split; [reflexivity |]. split; [reflexivity |].
    apply (Hget None _ eq_refl eq_refl).
Qed.

Lemma truthy_areas_In (docs_preview : list (option string)) (a : string) :
  In a (Production.truthy_areas docs_preview) <-> (a <> ""%string /\ In (Some a) docs_preview).
Proof.
  unfold Production.truthy_areas. rewrite in_flat_map. split.
  - intros [d [Hd Ha]]. destruct d as [b |]; [| destruct Ha].
    destruct (String.eqb b "") eqn:E; [destruct Ha |].
    apply String.eqb_neq in E. destruct Ha as [<- | []]. split; assumption.
  - intros [Hne Hin]. exists (Some a). split; [exact Hin |].
    apply String.eqb_neq in Hne. rewrite Hne. left. reflexivity.
Qed.

(** The areas on offer are never empty, are sorted and without repeats;
    they are the non-empty price areas of the previewed documents, or the
    five keys of the table when there are none. *)
Theorem production_areas_offered (docs_preview : list (option string)) :
  Production.areas docs_preview <> []
  /\ List.NoDup (Production.areas docs_preview)
  /\ Sorted (fun a b => String.leb a b = true) (Production.areas docs_preview)
  /\ (Production.truthy_areas docs_preview <> [] ->
      forall a, In a (Production.areas docs_preview)
                <-> (a <> ""%string /\ In (Some a) docs_preview))
  /\ (Production.truthy_areas docs_preview = [] ->
      Production.areas docs_preview = ["NO1"; "NO2"; "NO3"; "NO4"; "NO5"]%string).
Proof.
  unfold Production.areas, Production.areas_in_db.
  destruct (sorted_distinct (Production.truthy_areas docs_preview)) as [| a l] eqn:E.
  - apply (proj1 (sorted_distinct_nil _)) in E. rewrite E.
    split; [discriminate |].
    split; [repeat constructor; simpl; intuition discriminate |].
    split; [repeat constructor |].
    split; [intros H; contradiction | reflexivity].
  - rewrite <- E.
    split; [rewrite E; discriminate |].
    split; [apply sorted_distinct_NoDup |].
    split; [apply sorted_distinct_sorted |].
    split.
    + intros _ b. rewrite sorted_distinct_In. apply truthy_areas_In.
    + intros H. rewrite H in E. discriminate.
Qed.

End SelectionFacts.

Section StlSelectorFacts.

(** The area selector of the STL page can be built exactly when the
    default area occurs in the snapshot; its index then points at the
    default area, and at no other place is that area listed. *)
Theorem stl_area_index (elhub : list Stl.row) (selected_area : option string) :
  (Stl.area_index elhub selected_area = None
   <-> ~ In (Stl.default_area selected_area) (map Stl.priceArea elhub))
  /\ (forall i, Stl.area_index elhub selected_area = Some i ->
        nth_error (Stl.price_areas elhub) i = Some (Stl.default_area selected_area)
        /\ forall j, nth_error (Stl.price_areas elhub) j
                     = Some (Stl.default_area selected_area) -> j = i).
Proof.
  unfold Stl.area_index. split.
  - rewrite list_index_None. unfold Stl.price_areas. rewrite sorted_distinct_In. reflexivity.
  - intros i Hi. apply list_index_Some in Hi. split; [exact Hi |].
    intros j Hj.
    pose proof (sorted_distinct_NoDup (map Stl.priceArea elhub)) as Hnd.
    fold (Stl.price_areas elhub) in Hnd.
    rewrite List.NoDup_nth_error in Hnd. apply Hnd; [| congruence].
    apply nth_error_Some. congruence.
Qed.

(** Every area on offer has at least one production group on offer, and
    every such pair selects at least one row of the snapshot. *)
Theorem stl_selection_nonempty (elhub : list Stl.row) (area : string) :
  In area (Stl.price_areas elhub) ->
  Stl.groups elhub area <> []
  /\ forall group, In group (Stl.groups elhub area) ->
       Stl.selected_rows elhub area group <> []
       /\ Forall (fun r => Stl.priceArea r = area /\ Stl.productionGroup r = group)
            (Stl.selected_rows elhub area group).
Proof.
  intros Ha. unfold Stl.price_areas in Ha. rewrite sorted_distinct_In in Ha.
  apply in_map_iff in Ha. destruct Ha as [r [Hr Hin]].
  split.
  - unfold Stl.groups. intros H. apply (proj1 (sorted_distinct_nil _)) in H.
    assert (In (Stl.productionGroup r)
              (map Stl.productionGroup
                 (List.filter (fun r => String.eqb (Stl.priceArea r) area) elhub))) as Hg.
    { apply in_map, filter_In. split; [exact Hin |]. apply String.eqb_eq, Hr. }
    rewrite H in Hg. destruct Hg.
  - intros group Hg. unfold Stl.groups in Hg. rewrite sorted_distinct_In in Hg.
    apply in_map_iff in Hg. destruct Hg as [r' [Hr' Hin']].
    apply filter_In in Hin'. destruct Hin' as [Hin' Harea].
    split.
    + intros H.
      assert (In r' (Stl.selected_rows elhub area group)) as Hsel.
      { unfold Stl.selected_rows. apply filter_In. split; [exact Hin' |].
        rewrite Harea. apply String.eqb_eq in Hr'. rewrite Hr'. reflexivity. }
      rewrite H in Hsel. destruct Hsel.
    + apply List.Forall_forall. intros x Hx. unfold Stl.selected_rows in Hx.
      apply filter_In in Hx. destruct Hx as [_ Hx]. apply andb_true_iff in Hx.
      destruct Hx as [H1 H2]. apply String.eqb_eq in H1, H2. split; assumption.
Qed.

End StlSelectorFacts.

Section AppFacts.
Context {A : Type}.
Local Open Scope Z_scope.

(** For a range of 1 to 12 months the plot shows the first
    [selected_range * (len(df) // 12)] rows, never more than there are; with
    the full range fewer than 12 rows at the end are left out, and a table
    of fewer than 12 rows is not plotted at all. *)
Theorem plot_data_rows (selected_range : Z) (df : list A) :
  1 <= selected_range <= 12 ->
  App.plot_data selected_range df = firstn (Z.to_nat (selected_range * (Py.len df / 12))) df
  /\ Py.len (App.plot_data selected_range df) = selected_range * (Py.len df / 12)
  /\ Py.len (App.plot_data selected_range df) <= Py.len df
  /\ (selected_range = 12 -> Py.len df - Py.len (App.plot_data selected_range df) < 12)
  /\ (Py.len df < 12 -> App.plot_data selected_range df = []).
Proof.
  intros Hr. unfold App.plot_data, App.end_idx, App.hours_per_month, App.head.
  assert (0 <= Py.len df) as Hlen by (unfold Py.len; lia).
  pose proof (Z.div_pos (Py.len df) 12 Hlen ltac:(lia)) as Hq.
  pose proof (Z.mul_div_le (Py.len df) 12 ltac:(lia)) as Hle.
  pose proof (Z.mod_pos_bound (Py.len df) 12 ltac:(lia)) as Hmod.
  pose proof (Z.div_mod (Py.len df) 12 ltac:(lia)) as Hdm.
  assert (0 <= selected_range * (Py.len df / 12) <= Py.len df) as Hidx by nia.
  destruct (selected_range * (Py.len df / 12) <? 0) eqn:E; [lia |].
  assert (Py.len (firstn (Z.to_nat (selected_range * (Py.len df / 12))) df)
          = selected_range * (Py.len df / 12)) as Hfl.
  { unfold Py.len in *. rewrite length_firstn. lia. }
  split; [reflexivity |]. split; [exact Hfl |]. rewrite Hfl.
  split; [lia |]. split; [intros ->; lia |].
  intros Hsmall. rewrite (Z.div_small (Py.len df) 12) by lia.
  rewrite Z.mul_0_r. reflexivity.
Qed.

End AppFacts.

(** ** The residual under a change of unit *)

Section SatvLevel.
Import Dct DctAlg.
Local Open Scope R_scope.

(** Past the first one, the coefficients do not see a constant added to
    the series. *)
Lemma dct_coeff_offset (s : list R) (c : R) (k : nat) :
  (1 <= k < length s)%nat ->
  dct_coeff (map (fun v => v + c) s) k = dct_coeff s k.
Proof.
  intros Hk. rewrite !dct_coeff_weight, length_map. f_equal.
  set (N := length s).
  assert (INR N <> 0) as HN by (apply not_0_INR; unfold N; lia).
  rewrite (rsum_ext _ (fun n => nth n s 0 * cos ((2 * INR n + 1) * angle N k)
                                + c * cos ((2 * INR n + 1) * (INR k * PI / (2 * INR N))))).
  - rewrite rsum_plus, rsum_scal, cos_odd_sum_zero by (fold N in Hk; lia). ring.
  - intros n Hn.
    rewrite (nth_indep (map _ s) 0 ((fun v => v + c) 0)) by (rewrite length_map; fold N; lia).
    rewrite (map_nth (fun v => v + c)).
    replace (INR k * PI / (2 * INR N)) with (angle N k) by (unfold angle; field; exact HN).
    ring.
Qed.

Lemma slice_fill_first {A : Type} (stop : Z) (v y0 y0' : A) (ys : list A) :
  (1 <= stop)%Z ->
  Py.slice_fill stop v (y0 :: ys) = Py.slice_fill stop v (y0' :: ys).
Proof.
  intros Hstop. unfold Py.slice_fill, Py.len. simpl length.
  set (n := Z.of_nat (S (length ys))).
  assert (exists c, Py.slice_stop stop n = S c) as [c ->].
  { unfold Py.slice_stop. destruct (stop <? 0)%Z eqn:E; [lia |].
    exists (Z.to_nat (Z.min stop n) - 1)%nat. unfold n. lia. }
  reflexivity.
Qed.

(** The residual does not depend on the level of the series. *)
Theorem satv_offset_invariant (s : list R) (c : R) (dct_keep_frac : Q) :
  satv_real (map (fun v => v + c) s) dct_keep_frac = satv_real s dct_keep_frac.
Proof.
  destruct s as [| x s'] eqn:Es; [reflexivity |]. rewrite <- Es.
  assert (s <> []) as Hne by (rewrite Es; discriminate).
  assert (map (fun v => v + c) s <> []) as Hne' by (rewrite Es; discriminate).
  unfold satv_real, satv. f_equal. unfold satv_coeffs.
  unfold Py.len. rewrite !dct_length, length_map.
  rewrite (dct_cons _ Hne'), (dct_cons _ Hne), length_map.
  rewrite (map_ext_in (dct_coeff (map (fun v => v + c) s)) (dct_coeff s)).
  - apply slice_fill_first. lia.
  - intros k Hk. apply in_seq in Hk. apply dct_coeff_offset. lia.
Qed.


Lemma nth_map_scale (a : R) (l : list R) (n : nat) :
  nth n (map (fun v => a * v) l) 0 = a * nth n l 0.
Proof.
  rewrite <- (map_nth (fun v => a * v) l 0 n). f_equal. ring.
Qed.

Lemma dct_scale (a : R) (s : list R) : dct (map (fun v => a * v) s) = map (fun v => a * v) (dct s).
Proof.
  unfold dct. rewrite length_map, map_map. apply map_ext. intros k.
  rewrite !dct_coeff_weight, length_map.
  rewrite (rsum_ext _ (fun n => a * (nth n s 0 * cos ((2 * INR n + 1) * angle (length s) k)))).
  - rewrite rsum_scal. ring.
  - intros n _. rewrite nth_map_scale. ring.
Qed.

Lemma idct_scale (a : R) (y : list R) :
  idct (map (fun v => a * v) y) = map (fun v => a * v) (idct y).
Proof.
  unfold idct. rewrite length_map, map_map. apply map_ext. intros n.
  rewrite !idct_sample_weight, length_map.
  rewrite (rsum_ext _ (fun j => a * (weight (length y) j * nth j y 0
                                     * cos ((2 * INR n + 1) * angle (length y) j)))).
  - rewrite rsum_scal. reflexivity.
  - intros j _. rewrite nth_map_scale. ring.
Qed.

Lemma slice_fill_scale (a : R) (stop : Z) (y : list R) :
  Py.slice_fill stop 0 (map (fun v => a * v) y) = map (fun v => a * v) (Py.slice_fill stop 0 y).
Proof.
  unfold Py.slice_fill, Py.len. rewrite length_map.
  set (c := Py.slice_stop stop (Z.of_nat (length y))).
  rewrite map_app, skipn_map. f_equal.
  clear. induction c as [| c IH]; simpl; [reflexivity |].
  rewrite <- IH, Rmult_0_r. reflexivity.
Qed.

(** A change of scale of the series is the same change of scale of the
    residual. *)
Theorem satv_scale (s : list R) (a : R) (dct_keep_frac : Q) :
  satv_real (map (fun v => a * v) s) dct_keep_frac
  = map (fun v => a * v) (satv_real s dct_keep_frac).
Proof.
  unfold satv_real, satv, satv_coeffs.
  rewrite dct_scale. unfold Py.len. rewrite length_map.
  rewrite slice_fill_scale, idct_scale. reflexivity.
Qed.

End SatvLevel.

(** ** Instances of the further properties *)

Lemma spc_flags_at_most_half_witness :
  (1 <= 1.4826 * 2)%Q
  /\ 2 * Spc.flagged_count [-6; -1; 0; 1; 100]%Q 2 <= length [-6; -1; 0; 1; 100]%Q.
Proof.
  assert (1 <= 1.4826 * 2)%Q as Hk by (vm_compute; discriminate).
  split; [exact Hk |].
  exact (spc_flags_at_most_half [-6; -1; 0; 1; 100]%Q 2 Hk).
Defined.

Lemma satv_removes_mean_witness :
  let s := [0; 0; 0; 0; 0; 100; 0; 0; 0; 0]%R in
  s <> []
  /\ (inject_Z (Py.len s) * (1 # 10) < 2)%Q
  /\ satv_real s (1 # 10) = map (fun v => (v - DctAlg.total s / INR (length s))%R) s.
Proof.
  intros s.
  assert (s <> []) as Hs by discriminate.
  assert (inject_Z (Py.len s) * (1 # 10) < 2)%Q as Hf by reflexivity.
  split; [exact Hs |]. split; [exact Hf |].
  exact (satv_removes_mean s (1 # 10) Hs Hf).
Defined.

Lemma get_selection_total_witness :
  Dict.get Outlier.PRICE_AREAS "SE3" = None
  /\ Outlier.get_selection (Some "SE3"%string)
     = Some ("SE3"%string, "Oslo"%string, 59.9139%Q, 10.7522%Q).
Proof.
  assert (Dict.get Outlier.PRICE_AREAS "SE3" = None) as Hnone by reflexivity.
  split; [exact Hnone |].
  destruct (get_selection_total (Some "SE3"%string))
    as [city [lat [lon [Hsel [_ [Hfallback _]]]]]].
  destruct (Hfallback Hnone) as [-> [-> ->]]. exact Hsel.
Defined.

Lemma production_areas_offered_witness :
  let docs := [Some "NO2"; None; Some ""; Some "NO1"; Some "NO2"]%string in
  Production.truthy_areas docs <> []
  /\ (In "NO1"%string (Production.areas docs)
      <-> ("NO1"%string <> ""%string /\ In (Some "NO1"%string) docs)).
Proof.
  intros docs.
  assert (Production.truthy_areas docs <> []) as Hne by discriminate.
  split; [exact Hne |].
  exact (proj1 (proj2 (proj2 (proj2 (production_areas_offered docs)))) Hne "NO1"%string).
Defined.

Lemma stl_area_index_witness :
  let elhub := [ {| Stl.priceArea := "NO2"; Stl.productionGroup := "hydro";
                    Stl.startTime := 0; Stl.quantityKwh := 5 |};
                 {| Stl.priceArea := "NO1"; Stl.productionGroup := "wind";
                    Stl.startTime := 1; Stl.quantityKwh := 7 |} ] in
  Stl.area_index elhub (Some "NO2"%string) = Some 1
  /\ nth_error (Stl.price_areas elhub) 1 = Some "NO2"%string.
Proof.
  intros elhub.
  assert (Stl.area_index elhub (Some "NO2"%string) = Some 1) as Hi by reflexivity.
  split; [exact Hi |].
  exact (proj1 (proj2 (stl_area_index elhub (Some "NO2"%string)) 1 Hi)).
Defined.

Lemma stl_selection_nonempty_witness :
  let elhub := [ {| Stl.priceArea := "NO2"; Stl.productionGroup := "hydro";
                    Stl.startTime := 0; Stl.quantityKwh := 5 |};
                 {| Stl.priceArea := "NO1"; Stl.productionGroup := "wind";
                    Stl.startTime := 1; Stl.quantityKwh := 7 |} ] in
  In "NO1"%string (Stl.price_areas elhub)
  /\ Stl.groups elhub "NO1" <> [].
Proof.
  intros elhub.
  assert (In "NO1"%string (Stl.price_areas elhub)) as Ha by (left; reflexivity).
  split; [exact Ha |].
  exact (proj1 (stl_selection_nonempty elhub "NO1"%string Ha)).
Defined.

Lemma plot_data_rows_witness :
  (1 <= 12 <= 12)%Z
  /\ Py.len (App.plot_data 12 (seq 0 25)) = (12 * (Py.len (seq 0 25) / 12))%Z.
Proof.
  assert (1 <= 12 <= 12)%Z as Hr by lia.
  split; [exact Hr |].
  exact (proj1 (proj2 (plot_data_rows 12 (seq 0 25) Hr))).
Defined.
